(** * OpenRouter agent: key lifecycle and usage reconciliation

    A shallow embedding of the key store (schema/supabase-schema.sql), of
    SupabaseService, KeyRotationService, UsageMonitoringService and of the
    key and usage controllers, with the properties of the key lifecycle
    and of the usage accounting stated over it; then of the batch
    operations of OpenRouterService with the admin batch route, of the
    rate limiter and of the authentication middleware.

    Modelling conventions.
    - The two tables are lists of rows, in insertion order.
    - [DECIMAL(10,2)] values are integers counting cents and
      [DECIMAL(10,6)] values are integers counting millionths of a dollar;
      storing a value in a column rounds it to the column's scale (half
      away from zero) and fails when it does not fit the precision.
    - JavaScript numbers are binary64 floats; the monitor's percentage
      arithmetic is computed on them.
    - A store or provider call either returns or throws; a throw never
      undoes statements that were already committed, so every operation
      returns its outcome together with the store it leaves behind.
    - The store answers every statement it is sent: the errors of a store
      call are those its own rules raise (no single row, a constraint, a
      value out of range).  A lost connection is not modelled, so a
      property of a listing or of a route is stated for the case that the
      listing succeeds, or that the route answers 200.
    - What the code reads from outside (the clock, [gen_random_uuid()],
      the provider's answer, the subscriptions table) is an explicit
      argument of the call.
    - Requests are taken at the type of the columns they reach: a user
      id is a UUID and a limit is an amount in whole cents.  A malformed
      id and a number beyond [Number.MAX_SAFE_INTEGER] have no
      counterpart in the model. *)

From Stdlib Require Import ZArith List String Bool Lia Floats Uint63.
From Stdlib Require Import Permutation Sorted.
Import ListNotations.
Open Scope Z_scope.

(* ===================================================================== *)
(** ** Scalars of the schema *)
(* ===================================================================== *)

(** [UUID] columns: the 128 bits read as a number. *)
Definition uuid := Z.

(** [DATE] values; [DATE_TRUNC('month', d)] is the first day of [d]'s
    month. *)
Record Date := mkDate { d_year : Z; d_month : Z; d_day : Z }.

Definition date_eqb (a b : Date) : bool :=
  (d_year a =? d_year b) && (d_month a =? d_month b) && (d_day a =? d_day b).

Definition date_ltb (a b : Date) : bool :=
  (d_year a <? d_year b)
  || ((d_year a =? d_year b)
      && ((d_month a <? d_month b)
          || ((d_month a =? d_month b) && (d_day a <? d_day b)))).

Definition date_trunc_month (d : Date) : Date :=
  mkDate (d_year d) (d_month d) 1.

(** [TIMESTAMPTZ] values: a date and the microseconds elapsed in it. *)
Record Timestamp := mkTs { ts_date : Date; ts_usec : Z }.

Definition ts_leb (a b : Timestamp) : bool :=
  date_ltb (ts_date a) (ts_date b)
  || (date_eqb (ts_date a) (ts_date b) && (ts_usec a <=? ts_usec b)).

(** [DECIMAL(10,2)], in cents, and [DECIMAL(10,6)], in millionths. *)
Definition cents := Z.
Definition micros := Z.

Definition fits_decimal_10 (v : Z) : bool := Z.abs v <? 10 ^ 10.

(** Rounding a value with six fractional digits to two, half away from
    zero (the rounding of [numeric]). *)
Definition round_micros_to_cents (m : micros) : cents :=
  if 0 <=? m then (m + 5000) / 10000 else - ((- m + 5000) / 10000).

Definition cents_to_micros (c : cents) : micros := c * 10000.

Definition fits_int4 (v : Z) : bool := (- 2 ^ 31 <=? v) && (v <? 2 ^ 31).

(** [status TEXT ... CHECK (status IN (...))]. *)
Inductive Status := active | inactive | suspended | expired.

Definition status_eqb (a b : Status) : bool :=
  match a, b with
  | active, active | inactive, inactive
  | suspended, suspended | expired, expired => true
  | _, _ => false
  end.

(* ===================================================================== *)
(** ** Tables *)
(* ===================================================================== *)

(** A row of [user_api_keys]. *)
Record KeyRow := mkKeyRow {
  id : uuid;
  user_id : uuid;
  openrouter_key_id : string;
  key_name : string;
  key_label : option string;
  monthly_limit : option cents;
  current_usage : cents;
  usage_reset_date : Date;
  status : Status;
  created_at : Timestamp;
  updated_at : Timestamp;
  last_used_at : option Timestamp
}.

(** A row of [api_usage_logs]. *)
Record LogRow := mkLogRow {
  log_id : uuid;
  log_user_id : uuid;
  api_key_id : uuid;
  model : string;
  request_tokens : Z;
  response_tokens : Z;
  total_tokens : Z;
  cost_usd : micros;
  endpoint : option string;
  agent_name : option string;
  request_duration_ms : option Z;
  log_created_at : Timestamp
}.

Record DB := mkDB {
  user_api_keys : list KeyRow;
  api_usage_logs : list LogRow
}.

Definition empty_db : DB := mkDB [] [].

(** Field updates of a key row, as the [SET] clauses need them. *)
Definition set_status (s : Status) (r : KeyRow) : KeyRow :=
  mkKeyRow (id r) (user_id r) (openrouter_key_id r) (key_name r) (key_label r)
           (monthly_limit r) (current_usage r) (usage_reset_date r) s
           (created_at r) (updated_at r) (last_used_at r).

Definition set_updated_at (t : Timestamp) (r : KeyRow) : KeyRow :=
  mkKeyRow (id r) (user_id r) (openrouter_key_id r) (key_name r) (key_label r)
           (monthly_limit r) (current_usage r) (usage_reset_date r) (status r)
           (created_at r) t (last_used_at r).

Definition set_usage (u : cents) (r : KeyRow) : KeyRow :=
  mkKeyRow (id r) (user_id r) (openrouter_key_id r) (key_name r) (key_label r)
           (monthly_limit r) u (usage_reset_date r) (status r)
           (created_at r) (updated_at r) (last_used_at r).

Definition set_reset_date (d : Date) (r : KeyRow) : KeyRow :=
  mkKeyRow (id r) (user_id r) (openrouter_key_id r) (key_name r) (key_label r)
           (monthly_limit r) (current_usage r) d (status r)
           (created_at r) (updated_at r) (last_used_at r).

Definition set_last_used_at (t : Timestamp) (r : KeyRow) : KeyRow :=
  mkKeyRow (id r) (user_id r) (openrouter_key_id r) (key_name r) (key_label r)
           (monthly_limit r) (current_usage r) (usage_reset_date r) (status r)
           (created_at r) (updated_at r) (Some t).

(** The table constraints of [user_api_keys] ([positive_limit],
    [positive_usage]; [valid_reset_date] holds by typing) and, apart,
    the precision of its decimal columns. *)
Definition key_row_checks (r : KeyRow) : bool :=
  match monthly_limit r with
  | None => true
  | Some l => 0 <? l
  end
  && (0 <=? current_usage r).

Definition key_row_fits (r : KeyRow) : bool :=
  match monthly_limit r with
  | None => true
  | Some l => fits_decimal_10 l
  end
  && fits_decimal_10 (current_usage r).

(** The constraints of [api_usage_logs] ([positive_tokens],
    [positive_cost]) and, apart, the range of its columns. *)
Definition log_row_checks (l : LogRow) : bool :=
  (0 <=? request_tokens l) && (0 <=? response_tokens l) && (0 <=? total_tokens l)
  && (0 <=? cost_usd l).

Definition log_row_fits (l : LogRow) : bool :=
  fits_int4 (request_tokens l) && fits_int4 (response_tokens l)
  && fits_int4 (total_tokens l) && fits_decimal_10 (cost_usd l)
  && match request_duration_ms l with
     | None => true
     | Some d => fits_int4 d
     end.

(* ===================================================================== *)
(** ** Outcomes and the store monad *)
(* ===================================================================== *)

Inductive Error :=
| PGRST116            (* a single row was requested, none or several came back *)
| UniqueViolation     (* primary key *)
| CheckViolation      (* a CHECK constraint *)
| ForeignKeyViolation
| NotNullViolation
| NumericOverflow
| InvalidInput        (* a value that is no literal of the column's type *)
| ProviderError       (* the provisioning API rejected or failed the request *)
| NoActiveKey (userId : uuid).  (* [new Error(`No active API key found ...`)] *)

Inductive Result (A : Type) :=
| Ok (a : A)
| Err (e : Error).

Arguments Ok {A} a.
Arguments Err {A} e.

(** A call against the store: its outcome and the store afterwards. *)
Definition Store (A : Type) : Type := DB -> Result A * DB.

Definition ret {A} (a : A) : Store A := fun db => (Ok a, db).

Definition throw {A} (e : Error) : Store A := fun db => (Err e, db).

Definition bind {A B} (m : Store A) (k : A -> Store B) : Store B :=
  fun db =>
    match m db with
    | (Ok a, db') => k a db'
    | (Err e, db') => (Err e, db')
    end.

Notation "x <- m ;; k" := (bind m (fun x => k))
  (at level 61, m at next level, right associativity).
Notation "m ;;; k" := (bind m (fun _ => k))
  (at level 61, right associativity).

Definition is_ok {A} (r : Result A) : bool :=
  match r with Ok _ => true | Err _ => false end.

(* ===================================================================== *)
(** ** What a call reads from outside *)
(* ===================================================================== *)

(** The key object the provisioning API answers with. *)
Record ProviderKey := mkProviderKey {
  pk_id : string;
  pk_name : string;
  pk_key : string
}.

Record Env := mkEnv {
  env_now : Timestamp;                 (* NOW(), CURRENT_DATE *)
  env_uuid : uuid;                     (* gen_random_uuid() *)
  env_provider : option ProviderKey;   (* POST /api/v1/keys; None: it failed *)
  env_delete_ok : bool;                (* DELETE /api/v1/keys/:id went through *)
  env_plan : option string             (* plan of the active subscription *)
}.

(* ===================================================================== *)
(** ** JavaScript values that reach the limit column *)
(* ===================================================================== *)

Inductive JsLimit :=
| JNum (c : cents)
| JNull
| JUndefined
| JFunction
| JObject.

Definition truthy (v : JsLimit) : bool :=
  match v with
  | JNum c => negb (c =? 0)
  | JNull | JUndefined => false
  | JFunction | JObject => true
  end.

(** [a || b]. *)
Definition js_or (a b : JsLimit) : JsLimit := if truthy a then a else b.

Fixpoint assoc (k : string) (o : list (string * JsLimit)) : option JsLimit :=
  match o with
  | [] => None
  | (k', v) :: rest => if String.eqb k k' then Some v else assoc k rest
  end.

Open Scope string_scope.

(** The properties every object literal inherits from [Object.prototype]. *)
Definition object_prototype : list (string * JsLimit) :=
  [ ("constructor", JFunction); ("hasOwnProperty", JFunction);
    ("isPrototypeOf", JFunction); ("propertyIsEnumerable", JFunction);
    ("toLocaleString", JFunction); ("toString", JFunction);
    ("valueOf", JFunction); ("__defineGetter__", JFunction);
    ("__defineSetter__", JFunction); ("__lookupGetter__", JFunction);
    ("__lookupSetter__", JFunction); ("__proto__", JObject) ].

(** [o[k]] for an object literal [o]. *)
Definition get_property (o : list (string * JsLimit)) (k : string) : JsLimit :=
  match assoc k o with
  | Some v => v
  | None =>
      match assoc k object_prototype with
      | Some v => v
      | None => JUndefined
      end
  end.

(** The [limits] literal of [getDefaultMonthlyLimit]. *)
Definition limits : list (string * JsLimit) :=
  [ ("free", JNum 1000); ("standard", JNum 5000); ("micro", JNum 10000);
    ("operator", JNum 25000); ("enterprise", JNum 50000);
    ("beta", JNum 100000); ("admin", JNull); ("future4200", JNull) ].

Definition getDefaultMonthlyLimit (subscriptionPlan : string) : JsLimit :=
  js_or (get_property limits subscriptionPlan) (JNum 1000).

Close Scope string_scope.

(** A limit read back from the store, as the JavaScript side sees it. *)
Definition js_of_column (l : option cents) : JsLimit :=
  match l with
  | Some c => JNum c
  | None => JNull
  end.

(** The value the [monthly_limit] column receives from a request body:
    JSON drops function-valued properties, so the column default (NULL)
    applies; an object is no numeric literal. *)
Definition column_of_js (v : JsLimit) : option (option cents) :=
  match v with
  | JNum c => Some (Some c)
  | JNull | JUndefined | JFunction => Some None
  | JObject => None
  end.

(* ===================================================================== *)
(** ** SupabaseService *)
(* ===================================================================== *)

Definition is_active_of (u : uuid) (r : KeyRow) : bool :=
  Z.eqb (user_id r) u && status_eqb (status r) active.

(** [ORDER BY created_at DESC LIMIT 1]. *)
Fixpoint latest (rows : list KeyRow) : option KeyRow :=
  match rows with
  | [] => None
  | r :: rest =>
      match latest rest with
      | None => Some r
      | Some r' =>
          if ts_leb (created_at r') (created_at r) then Some r else Some r'
      end
  end.

Definition active_rows (u : uuid) (db : DB) : list KeyRow :=
  filter (is_active_of u) (user_api_keys db).

(** The active key of a user, or null when the query has no row
    (PGRST116 is not rethrown). *)
Definition getUserApiKey (userId : uuid) : Store (option KeyRow) :=
  fun db => (Ok (latest (active_rows userId db)), db).

Definition has_key_id (i : uuid) (rows : list KeyRow) : bool :=
  existsb (fun r => Z.eqb (id r) i) rows.

Definition new_key_row (e : Env) (userId : uuid) (openrouterKeyId keyName : string)
    (limit : option cents) : KeyRow :=
  mkKeyRow (env_uuid e) userId openrouterKeyId keyName None limit 0
           (date_trunc_month (ts_date (env_now e))) active
           (env_now e) (env_now e) None.

(** [insert({...status: 'active'}).select().single()]. *)
Definition createUserApiKey (e : Env) (userId : uuid)
    (openrouterKeyId keyName : string) (monthlyLimit : JsLimit) : Store KeyRow :=
  fun db =>
    match column_of_js monthlyLimit with
    | None => (Err InvalidInput, db)
    | Some limit =>
        let row := new_key_row e userId openrouterKeyId keyName limit in
        if negb (key_row_fits row) then (Err NumericOverflow, db)
        else if negb (key_row_checks row) then (Err CheckViolation, db)
        else if has_key_id (id row) (user_api_keys db) then (Err UniqueViolation, db)
        else (Ok row, mkDB (user_api_keys db ++ [row]) (api_usage_logs db))
    end.

(** The row trigger [on_user_api_keys_updated]. *)
Definition update_updated_at_column (e : Env) (r : KeyRow) : KeyRow :=
  set_updated_at (env_now e) r.

(** What [update({status: 'inactive'}).eq('user_id', userId)
    .eq('status', 'active')] does to one row. *)
Definition deactivate_row (e : Env) (userId : uuid) (r : KeyRow) : KeyRow :=
  if is_active_of userId r
  then update_updated_at_column e (set_status inactive r)
  else r.

(** The update ends in [.select().single()]: unless exactly one row
    matched, the request is answered with PGRST116 and nothing is
    written; the error is rethrown. *)
Definition deactivateUserApiKey (e : Env) (userId : uuid) : Store KeyRow :=
  fun db =>
    match active_rows userId db with
    | [r] =>
        (Ok (deactivate_row e userId r),
         mkDB (map (deactivate_row e userId) (user_api_keys db))
              (api_usage_logs db))
    | _ => (Err PGRST116, db)
    end.

(** The SQL function [check_usage_limit]. *)
Definition check_usage_limit (db : DB) (user_uuid : uuid) : bool :=
  match latest (active_rows user_uuid db) with
  | None => true                       (* user_limit IS NULL *)
  | Some k =>
      match monthly_limit k with
      | None => true                   (* user_limit IS NULL *)
      | Some user_limit => current_usage k <? user_limit
      end
  end.

Definition checkUserUsageLimit (userId : uuid) : Store bool :=
  fun db => (Ok (check_usage_limit db userId), db).

(** The body of a usage report, [usageData]; the cost is given at the
    scale of the column it is inserted in. *)
Record UsageData := mkUsageData {
  ud_model : option string;
  ud_requestTokens : option Z;
  ud_responseTokens : option Z;
  ud_totalTokens : option Z;
  ud_costUsd : option micros;
  ud_endpoint : option string;
  ud_agentName : option string;
  ud_durationMs : option Z
}.

(** [x || 0] for a number that may be missing. *)
Definition or_zero (x : option Z) : Z :=
  match x with
  | Some v => v
  | None => 0
  end.

Definition has_log_id (i : uuid) (rows : list LogRow) : bool :=
  existsb (fun r => Z.eqb (log_id r) i) rows.

(** The [SET] clause of the trigger function [update_user_usage] on one
    row, followed by the row trigger on updates: the sum has six
    fractional digits and is stored in a column that keeps two. *)
Definition add_usage (e : Env) (new : LogRow) (r : KeyRow) : KeyRow :=
  update_updated_at_column e
    (set_last_used_at (log_created_at new)
       (set_usage
          (round_micros_to_cents (cents_to_micros (current_usage r) + cost_usd new))
          r)).

(** [update_user_usage]: [UPDATE user_api_keys ... WHERE id = NEW.api_key_id]. *)
Definition update_user_usage (e : Env) (new : LogRow) (rows : list KeyRow)
    : list KeyRow :=
  map (fun r => if Z.eqb (id r) (api_key_id new) then add_usage e new r else r)
      rows.

(** [insert({...}).select().single()] into [api_usage_logs]; the insert
    and the trigger [on_api_usage_log_insert] are one statement, which is
    undone as a whole when either fails. *)
Definition logApiUsage (e : Env) (userId apiKeyId : uuid) (usageData : UsageData)
    : Store LogRow :=
  fun db =>
    match ud_model usageData with
    | None => (Err NotNullViolation, db)
    | Some m =>
        let row :=
          mkLogRow (env_uuid e) userId apiKeyId m
                   (or_zero (ud_requestTokens usageData))
                   (or_zero (ud_responseTokens usageData))
                   (or_zero (ud_totalTokens usageData))
                   (or_zero (ud_costUsd usageData))
                   (ud_endpoint usageData) (ud_agentName usageData)
                   (ud_durationMs usageData) (env_now e) in
        if negb (log_row_fits row) then (Err NumericOverflow, db)
        else if negb (log_row_checks row) then (Err CheckViolation, db)
        else if has_log_id (log_id row) (api_usage_logs db)
        then (Err UniqueViolation, db)
        else if negb (has_key_id apiKeyId (user_api_keys db))
        then (Err ForeignKeyViolation, db)
        else
          let updated :=
            map (add_usage e row)
                (filter (fun r => id r =? apiKeyId) (user_api_keys db)) in
          if negb (forallb key_row_fits updated) then (Err NumericOverflow, db)
          else if negb (forallb key_row_checks updated) then (Err CheckViolation, db)
          else (Ok row,
                mkDB (update_user_usage e row (user_api_keys db))
                     (api_usage_logs db ++ [row]))
    end.

(** Insertion into a list ordered by [created_at], newest first. *)
Fixpoint insert_desc (r : KeyRow) (l : list KeyRow) : list KeyRow :=
  match l with
  | [] => [r]
  | x :: xs =>
      if ts_leb (created_at x) (created_at r) then r :: l
      else x :: insert_desc r xs
  end.

Definition order_by_created_at_desc (l : list KeyRow) : list KeyRow :=
  fold_right insert_desc [] l.

(** All active keys, newest first (the joined profile is display data
    only and is left out). *)
Definition getAllUsersWithKeys : Store (list KeyRow) :=
  fun db =>
    (Ok (order_by_created_at_desc
           (filter (fun r => status_eqb (status r) active) (user_api_keys db))),
     db).

(** The SQL function [reset_monthly_usage]. *)
Definition is_stale (cycle : Date) (r : KeyRow) : bool :=
  date_ltb (usage_reset_date r) cycle.

Definition reset_row (e : Env) (cycle : Date) (r : KeyRow) : KeyRow :=
  update_updated_at_column e (set_reset_date cycle (set_usage 0 r)).

Definition reset_monthly_usage (e : Env) (db : DB) : Z * DB :=
  let cycle := date_trunc_month (ts_date (env_now e)) in
  (Z.of_nat (List.length (filter (is_stale cycle) (user_api_keys db))),
   mkDB (map (fun r => if is_stale cycle r then reset_row e cycle r else r)
             (user_api_keys db))
        (api_usage_logs db)).

Definition resetAllMonthlyUsage (e : Env) : Store Z :=
  fun db => let (n, db') := reset_monthly_usage e db in (Ok n, db').

(* ===================================================================== *)
(** ** OpenRouterService *)
(* ===================================================================== *)

(** [createUserKey]: the key the provider answers with, or its error. *)
Definition createUserKey (e : Env) (userId : uuid) (monthlyLimit : JsLimit)
    : Store ProviderKey :=
  fun db =>
    match env_provider e with
    | Some k => (Ok k, db)
    | None => (Err ProviderError, db)
    end.

Definition deleteKey (e : Env) (keyId : string) : Store unit :=
  fun db => if env_delete_ok e then (Ok tt, db) else (Err ProviderError, db).

(** [try { m } catch (error) { logger.warn(...) }]. *)
Definition try_warn (m : Store unit) : Store unit :=
  fun db => let (_, db') := m db in (Ok tt, db').

(* ===================================================================== *)
(** ** KeyRotationService *)
(* ===================================================================== *)

Record Rotation := mkRotation { oldKey : KeyRow; newKey : KeyRow }.

Definition rotateUserKey (e : Env) (userId : uuid) (deleteOld : bool)
    : Store Rotation :=
  currentKey <- getUserApiKey userId ;;
  match currentKey with
  | None => throw (NoActiveKey userId)
  | Some currentKey =>
      deactivateUserApiKey e userId ;;;
      newOpenRouterKey <-
        createUserKey e userId (js_of_column (monthly_limit currentKey)) ;;
      newUserApiKey <-
        createUserApiKey e userId (pk_id newOpenRouterKey)
          (pk_name newOpenRouterKey) (js_of_column (monthly_limit currentKey)) ;;
      (if deleteOld
       then try_warn (deleteKey e (openrouter_key_id currentKey))
       else ret tt) ;;;
      ret (mkRotation currentKey newUserApiKey)
  end.

(** One entry of the manifest of [rotateAllUserKeys]. *)
Record RotationOutcome := mkOutcome {
  ro_userId : uuid;
  ro_success : bool;
  ro_error : option Error
}.

(** The loop of [rotateAllUserKeys]; [envs i] is what the [i]-th call
    reads from outside. *)
Fixpoint rotate_each (envs : nat -> Env) (i : nat) (usersWithKeys : list KeyRow)
    (db : DB) : list RotationOutcome * DB :=
  match usersWithKeys with
  | [] => ([], db)
  | userKey :: rest =>
      let (r, db1) := rotateUserKey (envs i) (user_id userKey) false db in
      let entry :=
        match r with
        | Ok _ => mkOutcome (user_id userKey) true None
        | Err err => mkOutcome (user_id userKey) false (Some err)
        end in
      let (results, db2) := rotate_each envs (S i) rest db1 in
      (entry :: results, db2)
  end.

(** [sendRotationNotification] catches its own errors and does not touch
    the store; it is left out. *)
Definition rotateAllUserKeys (envs : nat -> Env) : Store (list RotationOutcome) :=
  usersWithKeys <- getAllUsersWithKeys ;;
  fun db =>
    let (results, db') := rotate_each envs 0 usersWithKeys db in
    (Ok results, db').

(* ===================================================================== *)
(** ** UsageMonitoringService *)
(* ===================================================================== *)

Inductive AlertType := critical | warning.

Record Alert := mkAlert {
  alert_type : AlertType;
  alert_userId : uuid;
  alert_usage : cents;
  alert_limit : cents;
  alert_percentage : float
}.

(** [alertThresholds]. *)
#[warnings="-inexact-float"] Definition usageWarning : float := 0.8.
#[warnings="-inexact-float"] Definition usageCritical : float := 0.95.

(** The JavaScript number a decimal of the store is read as: the double
    nearest to it, which is the correctly rounded quotient of the number
    of cents by 100. *)
Definition number_of_Z (z : Z) : float :=
  if z <? 0 then PrimFloat.opp (PrimFloat.of_uint63 (Uint63.of_Z (- z)))
  else PrimFloat.of_uint63 (Uint63.of_Z z).

Definition number_of_cents (c : cents) : float :=
  PrimFloat.div (number_of_Z c) (number_of_Z 100).

(** The body of the loop of [checkUsageLimits] for one key: the alert it
    pushes, if any. *)
Definition usage_alert (userKey : KeyRow) : option Alert :=
  let usage := number_of_cents (current_usage userKey) in
  match monthly_limit userKey with
  | None => None                                 (* if (!limit) continue *)
  | Some l =>
      let limit := number_of_cents l in
      if PrimFloat.eqb limit 0 then None         (* if (!limit) continue *)
      else
        let usagePercentage := PrimFloat.div usage limit in
        if PrimFloat.leb usageCritical usagePercentage
        then Some (mkAlert critical (user_id userKey) (current_usage userKey) l
                           usagePercentage)
        else if PrimFloat.leb usageWarning usagePercentage
        then Some (mkAlert warning (user_id userKey) (current_usage userKey) l
                           usagePercentage)
        else None
  end.

Fixpoint collect_alerts (usersWithKeys : list KeyRow) : list Alert :=
  match usersWithKeys with
  | [] => []
  | userKey :: rest =>
      match usage_alert userKey with
      | Some a => a :: collect_alerts rest
      | None => collect_alerts rest
      end
  end.

(** [sendUsageAlerts] catches its own errors and does not touch the
    store; it is left out. *)
Definition checkUsageLimits : Store (list Alert) :=
  usersWithKeys <- getAllUsersWithKeys ;;
  ret (collect_alerts usersWithKeys).

Definition resetMonthlyUsage (e : Env) : Store Z := resetAllMonthlyUsage e.

(* ===================================================================== *)
(** ** Controllers *)
(* ===================================================================== *)

(** [POST /api/keys/create-user]. *)
Inductive CreateUserResponse :=
| Created (userApiKey : KeyRow) (openRouterKey : ProviderKey)   (* 201 *)
| ValidationFailed                                              (* 400 *)
| Conflict (existingKey : KeyRow)                               (* 409 *)
| CreateFailed (e : Error).                                     (* 500 *)

(** [subscription?.plan || 'free']. *)
Definition plan_or_free (plan : option string) : string :=
  match plan with
  | Some EmptyString => "free"%string
  | Some p => p
  | None => "free"%string
  end.

Definition create_user (e : Env) (userId : uuid) (monthlyLimit : option cents)
    : DB -> CreateUserResponse * DB :=
  fun db =>
    (* createUserKeySchema: monthlyLimit is optional and positive *)
    if match monthlyLimit with Some m => m <=? 0 | None => false end
    then (ValidationFailed, db)
    else
      match getUserApiKey userId db with
      | (Err err, db1) => (CreateFailed err, db1)
      | (Ok (Some existingKey), db1) => (Conflict existingKey, db1)
      | (Ok None, db1) =>
          let defaultLimit := getDefaultMonthlyLimit (plan_or_free (env_plan e)) in
          let finalLimit :=
            js_or (match monthlyLimit with Some m => JNum m | None => JUndefined end)
                  defaultLimit in
          match
            (openRouterKey <- createUserKey e userId finalLimit ;;
             userApiKey <-
               createUserApiKey e userId (pk_id openRouterKey)
                 (pk_name openRouterKey) finalLimit ;;
             ret (userApiKey, openRouterKey)) db1
          with
          | (Ok (userApiKey, openRouterKey), db2) =>
              (Created userApiKey openRouterKey, db2)
          | (Err err, db2) => (CreateFailed err, db2)
          end
      end.

(** [GET /api/keys/user/:userId]. *)
Inductive UserKeyResponse :=
| KeyFound (userApiKey : KeyRow) (openRouterInfo : ProviderKey)  (* 200 *)
| KeyNotFound                                                    (* 404 *)
| KeyLookupFailed (e : Error).                                   (* 500 *)

Definition getKeyInfo (e : Env) (keyId : string) : Store ProviderKey :=
  fun db =>
    match env_provider e with
    | Some k => (Ok k, db)
    | None => (Err ProviderError, db)
    end.

Definition get_user_key (e : Env) (userId : uuid) : DB -> UserKeyResponse :=
  fun db =>
    match getUserApiKey userId db with
    | (Err err, _) => KeyLookupFailed err
    | (Ok None, _) => KeyNotFound
    | (Ok (Some userApiKey), db1) =>
        match getKeyInfo e (openrouter_key_id userApiKey) db1 with
        | (Ok info, _) => KeyFound userApiKey info
        | (Err err, _) => KeyLookupFailed err
        end
    end.

(** [GET /api/usage/:userId/limit]; a field is [None] where the handler
    leaves it undefined. *)
Record LimitData := mkLimitData {
  withinLimit : bool;
  monthlyLimit : option (option cents);
  currentUsage : option cents;
  usageResetDate : option Date
}.

Inductive LimitResponse :=
| LimitChecked (data : LimitData)    (* 200 *)
| LimitCheckFailed (e : Error).      (* 500 *)

Definition usage_limit (userId : uuid) : DB -> LimitResponse :=
  fun db =>
    match
      (within <- checkUserUsageLimit userId ;;
       userApiKey <- getUserApiKey userId ;;
       ret (mkLimitData within
              (option_map monthly_limit userApiKey)
              (option_map current_usage userApiKey)
              (option_map usage_reset_date userApiKey))) db
    with
    | (Ok data, _) => LimitChecked data
    | (Err err, _) => LimitCheckFailed err
    end.

(* ===================================================================== *)
(** ** The lifecycle operations, in sequence *)
(* ===================================================================== *)

Inductive Op :=
| createKeyForUser (e : Env) (userId : uuid) (monthlyLimit : option cents)
| rotateKeyForUser (e : Env) (userId : uuid) (deleteOld : bool)
| deactivateKeyForUser (e : Env) (userId : uuid).

Definition step (db : DB) (op : Op) : DB :=
  match op with
  | createKeyForUser e u l => snd (create_user e u l db)
  | rotateKeyForUser e u d => snd (rotateUserKey e u d db)
  | deactivateKeyForUser e u => snd (deactivateUserApiKey e u db)
  end.

Definition run (ops : list Op) (db : DB) : DB := fold_left step ops db.

(** The number of active records of a user. *)
Definition active_count (u : uuid) (db : DB) : nat :=
  List.length (active_rows u db).

Definition unique_active (db : DB) : Prop :=
  forall u, (active_count u db <= 1)%nat.

(* ===================================================================== *)
(** ** The store after a rotation *)
(* ===================================================================== *)

(** Step 1 of a rotation alone: the user's active record is inactive. *)
Definition deactivated (e : Env) (u : uuid) (db : DB) : DB :=
  mkDB (map (deactivate_row e u) (user_api_keys db)) (api_usage_logs db).

(** The record a rotation persists for the provider key [pk], carrying
    the limit of [cur]. *)
Definition rotated_key (e : Env) (u : uuid) (cur : KeyRow) (pk : ProviderKey)
    : KeyRow :=
  new_key_row e u (pk_id pk) (pk_name pk) (monthly_limit cur).

(** Steps 1 to 3: deactivated, then the new record appended. *)
Definition rotated (e : Env) (u : uuid) (cur : KeyRow) (pk : ProviderKey)
    (db : DB) : DB :=
  mkDB (user_api_keys (deactivated e u db) ++ [rotated_key e u cur pk])
       (api_usage_logs db).

(** The store satisfies the constraints of [user_api_keys]. *)
Definition schema_ok (db : DB) : Prop :=
  forall r, In r (user_api_keys db) ->
            key_row_checks r = true /\ key_row_fits r = true.

(* ===================================================================== *)
(** ** Usage reports, in sequence *)
(* ===================================================================== *)

(** One [logUsage] request. *)
Record LogCall := mkLogCall {
  lc_env : Env;
  lc_userId : uuid;
  lc_apiKeyId : uuid;
  lc_data : UsageData
}.

Definition log_step (db : DB) (c : LogCall) : DB :=
  snd (logApiUsage (lc_env c) (lc_userId c) (lc_apiKeyId c) (lc_data c) db).

Definition log_all (calls : list LogCall) (db : DB) : DB :=
  fold_left log_step calls db.

(** [SUM(cost_usd)] over the log rows that reference a key, in millionths. *)
Definition logged_cost (keyId : uuid) (db : DB) : micros :=
  fold_right Z.add 0
    (map cost_usd
         (filter (fun l => api_key_id l =? keyId) (api_usage_logs db))).

(** Every key's usage is the sum of the costs logged against it. *)
Definition usage_conserved (db : DB) : Prop :=
  forall r, In r (user_api_keys db) ->
            cents_to_micros (current_usage r) = logged_cost (id r) db.

(** A report whose cost is a whole number of cents. *)
Definition whole_cents (c : LogCall) : Prop :=
  exists k, or_zero (ud_costUsd (lc_data c)) = cents_to_micros k.

(* ===================================================================== *)
(** ** Every operation that writes to the store *)
(* ===================================================================== *)

(** The operations of the services and routes that write, in sequence:
    the lifecycle operations, usage reports, the monthly reset and the
    batch rotation. *)
Inductive StoreOp :=
| lifecycle (op : Op)
| logUsage (c : LogCall)
| resetAllUsage (e : Env)
| rotateAllKeys (envs : nat -> Env).

Definition store_step (db : DB) (op : StoreOp) : DB :=
  match op with
  | lifecycle o => step db o
  | logUsage c => log_step db c
  | resetAllUsage e => snd (resetAllMonthlyUsage e db)
  | rotateAllKeys envs => snd (rotateAllUserKeys envs db)
  end.

Definition store_run (ops : list StoreOp) (db : DB) : DB :=
  fold_left store_step ops db.

(** The four statements that write, each with the guard under which the
    code issues it: the insert of a key (after a lookup found no active
    key of the user, or after the deactivation), the deactivation, the
    insert of a usage row with its trigger, and the reset. *)
Inductive write (db : DB) : DB -> Prop :=
| write_key (e : Env) (u : uuid) (k n : string) (lim : option cents) :
    active_rows u db = [] ->
    key_row_checks (new_key_row e u k n lim) = true ->
    key_row_fits (new_key_row e u k n lim) = true ->
    has_key_id (env_uuid e) (user_api_keys db) = false ->
    write db (mkDB (user_api_keys db ++ [new_key_row e u k n lim])
                   (api_usage_logs db))
| write_deactivation (e : Env) (u : uuid) :
    write db (deactivated e u db)
| write_usage (e : Env) (row : LogRow) :
    log_row_checks row = true ->
    log_row_fits row = true ->
    has_log_id (log_id row) (api_usage_logs db) = false ->
    has_key_id (api_key_id row) (user_api_keys db) = true ->
    (forall r, In r (user_api_keys db) -> id r = api_key_id row ->
               key_row_checks (add_usage e row r) = true
               /\ key_row_fits (add_usage e row r) = true) ->
    write db (mkDB (update_user_usage e row (user_api_keys db))
                   (api_usage_logs db ++ [row]))
| write_reset (e : Env) :
    write db (snd (reset_monthly_usage e db)).

(** Any number of writes, one after the other. *)
Inductive writes (db : DB) : DB -> Prop :=
| writes_none : writes db db
| writes_more (db1 db2 : DB) : writes db db1 -> write db1 db2 -> writes db db2.

(** The constraints of [api_usage_logs] hold of every row. *)
Definition log_schema_ok (db : DB) : Prop :=
  forall l, In l (api_usage_logs db) ->
            log_row_checks l = true /\ log_row_fits l = true.

(** The primary keys: no two rows of a table share an id. *)
Definition primary_keys_ok (db : DB) : Prop :=
  NoDup (map id (user_api_keys db)) /\ NoDup (map log_id (api_usage_logs db)).

(** [api_key_id REFERENCES user_api_keys(id)]. *)
Definition foreign_keys_ok (db : DB) : Prop :=
  forall l, In l (api_usage_logs db) ->
            has_key_id (api_key_id l) (user_api_keys db) = true.

(* ===================================================================== *)
(** ** Relations between a row before and after a statement *)
(* ===================================================================== *)

(** [r'] is [r] charged with [cost]: the same record in every column but
    the usage and the two timestamps [updated_at] and [last_used_at], its
    usage moved to the cent nearest to the old usage plus the cost, never
    downwards. *)
Definition charged (cost : micros) (r r' : KeyRow) : Prop :=
  id r' = id r
  /\ user_id r' = user_id r
  /\ openrouter_key_id r' = openrouter_key_id r
  /\ key_name r' = key_name r
  /\ key_label r' = key_label r
  /\ monthly_limit r' = monthly_limit r
  /\ usage_reset_date r' = usage_reset_date r
  /\ status r' = status r
  /\ created_at r' = created_at r
  /\ current_usage r <= current_usage r'
  /\ Z.abs (cents_to_micros (current_usage r')
            - (cents_to_micros (current_usage r) + cost)) <= 5000.

(* ===================================================================== *)
(** ** The rotation route and the rotation report *)
(* ===================================================================== *)

(** [POST /api/keys/rotate-user]; the schema defaults [deleteOld] to
    false. *)
Inductive RotateUserResponse :=
| Rotated (oldKey newUserApiKey : KeyRow) (openRouterKey : ProviderKey)  (* 200 *)
| RotateNoKey                                                           (* 404 *)
| RotateFailed (e : Error).                                             (* 500 *)

Definition rotate_user (e : Env) (userId : uuid) (deleteOld : option bool)
    : DB -> RotateUserResponse * DB :=
  fun db =>
    let deleteOld := match deleteOld with Some b => b | None => false end in
    match getUserApiKey userId db with
    | (Err err, db1) => (RotateFailed err, db1)
    | (Ok None, db1) => (RotateNoKey, db1)
    | (Ok (Some currentKey), db1) =>
        match
          (deactivateUserApiKey e userId ;;;
           newOpenRouterKey <-
             createUserKey e userId (js_of_column (monthly_limit currentKey)) ;;
           newUserApiKey <-
             createUserApiKey e userId (pk_id newOpenRouterKey)
               (pk_name newOpenRouterKey)
               (js_of_column (monthly_limit currentKey)) ;;
           (if deleteOld
            then try_warn (deleteKey e (openrouter_key_id currentKey))
            else ret tt) ;;;
           ret (newUserApiKey, newOpenRouterKey)) db1
        with
        | (Ok (newUserApiKey, newOpenRouterKey), db2) =>
            (Rotated currentKey newUserApiKey newOpenRouterKey, db2)
        | (Err err, db2) => (RotateFailed err, db2)
        end
    end.

(** The figures of [sendRotationNotification]: total users, successful,
    failed, and whether the attachment is coloured as a warning. *)
Record RotationReport := mkRotationReport {
  rr_total : nat;
  rr_successful : nat;
  rr_failed : nat;
  rr_warning : bool
}.

Definition rotation_report (results : list RotationOutcome) : RotationReport :=
  let successCount := List.length (filter ro_success results) in
  let failureCount := List.length (filter (fun r => negb (ro_success r)) results) in
  mkRotationReport (List.length results) successCount failureCount
                   (Nat.ltb 0 failureCount).

(* ===================================================================== *)
(** ** OpenRouterService: batch operations *)
(* ===================================================================== *)

Module OpenRouter.

(** The provisioning API as the service sees it: its answer to the
    [n]-th request made, [None] when the request fails (a status that is
    not 2xx, a network error, a body that does not parse). *)
Definition Upstream := nat -> option ProviderKey.

(** A call of the service: from the number of requests made so far to
    its outcome and the number made afterwards. *)
Definition Call (A : Type) : Type := nat -> Result A * nat.

Definition makeRequest (up : Upstream) : Call ProviderKey :=
  fun n =>
    (match up n with
     | Some k => Ok k
     | None => Err ProviderError
     end, S n).

Definition getKeyInfo (up : Upstream) (keyId : string) : Call ProviderKey :=
  makeRequest up.

Definition deleteKey (up : Upstream) (keyId : string) : Call unit :=
  fun n =>
    match makeRequest up n with
    | (Ok _, n') => (Ok tt, n')
    | (Err err, n') => (Err err, n')
    end.

(** The answer of [testKey], which catches the error of the lookup. *)
Record TestResult := mkTestResult {
  tr_valid : bool;
  tr_keyInfo : option ProviderKey;
  tr_error : option Error
}.

Definition testKey (up : Upstream) (keyId : string) : Call TestResult :=
  fun n =>
    match getKeyInfo up keyId n with
    | (Ok keyInfo, n') => (Ok (mkTestResult true (Some keyInfo) None), n')
    | (Err err, n') => (Ok (mkTestResult false None (Some err)), n')
    end.

Inductive BatchData :=
| InfoData (keyInfo : ProviderKey)
| TestData (result : TestResult).

Inductive BatchError :=
| UnknownOperation             (* 'Unknown operation' *)
| Thrown (err : Error).        (* error.message *)

Record BatchResult := mkBatchResult {
  br_keyId : string;
  br_success : bool;
  br_data : option BatchData;
  br_error : option BatchError
}.

(** The body of the loop of [batchOperation] for one key id. *)
Definition batch_one (up : Upstream) (operation keyId : string)
    : nat -> BatchResult * nat :=
  fun n =>
    if String.eqb operation "delete" then
      match deleteKey up keyId n with
      | (Ok _, n') => (mkBatchResult keyId true None None, n')
      | (Err err, n') => (mkBatchResult keyId false None (Some (Thrown err)), n')
      end
    else if String.eqb operation "info" then
      match getKeyInfo up keyId n with
      | (Ok info, n') => (mkBatchResult keyId true (Some (InfoData info)) None, n')
      | (Err err, n') => (mkBatchResult keyId false None (Some (Thrown err)), n')
      end
    else if String.eqb operation "test" then
      match testKey up keyId n with
      | (Ok t, n') => (mkBatchResult keyId true (Some (TestData t)) None, n')
      | (Err err, n') => (mkBatchResult keyId false None (Some (Thrown err)), n')
      end
    else (mkBatchResult keyId false None (Some UnknownOperation), n).

Fixpoint batch_each (up : Upstream) (operation : string) (keyIds : list string)
    (n : nat) : list BatchResult * nat :=
  match keyIds with
  | [] => ([], n)
  | keyId :: rest =>
      let (result, n1) := batch_one up operation keyId n in
      let (results, n2) := batch_each up operation rest n1 in
      (result :: results, n2)
  end.

Definition batchOperation (up : Upstream) (operation : string)
    (keyIds : list string) : Call (list BatchResult) :=
  fun n => let (results, n') := batch_each up operation keyIds n in (Ok results, n').

(** [POST /api/admin/keys/batch-delete]; the body's [keyIds] is [None]
    when it is no array. *)
Inductive BatchDeleteResponse :=
| BatchDone (results : list BatchResult) (total successful failed : nat)  (* 200 *)
| BatchInvalid                                                           (* 400 *)
| BatchFailed (e : Error).                                               (* 500 *)

Definition batch_delete (up : Upstream) (keyIds : option (list string))
    : nat -> BatchDeleteResponse * nat :=
  fun n =>
    match keyIds with
    | None | Some [] => (BatchInvalid, n)
    | Some keyIds =>
        match batchOperation up "delete" keyIds n with
        | (Ok results, n') =>
            let successCount := List.length (filter br_success results) in
            let failureCount :=
              List.length (filter (fun r => negb (br_success r)) results) in
            (BatchDone results (List.length keyIds) successCount failureCount, n')
        | (Err err, n') => (BatchFailed err, n')
        end
    end.

(** The operations that [batchOperation] knows. *)
Definition known_operation (operation : string) : bool :=
  String.eqb operation "delete" || String.eqb operation "info"
  || String.eqb operation "test".

(** Whether the provider answers the [n]-th request. *)
Definition answered (up : Upstream) (n : nat) : bool :=
  match up n with Some _ => true | None => false end.

(** The [valid] flag an entry of a test batch carries. *)
Definition entry_valid (r : BatchResult) : option bool :=
  match br_data r with
  | Some (TestData t) => Some (tr_valid t)
  | _ => None
  end.

End OpenRouter.

(* ===================================================================== *)
(** ** The rate limiter *)
(* ===================================================================== *)

Module RateLimiter.

(** [windowMs] and [maxRequests], read from the environment once. *)
Record Config := mkConfig {
  windowMs : Z;
  maxRequests : Z
}.

(** The value the map holds for a key. *)
Record Entry := mkEntry {
  count : Z;
  resetTime : Z
}.

(** The map [requestCounts]; the order of its entries is never used. *)
Definition Counts := string -> option Entry.

Definition no_counts : Counts := fun _ => None.

Definition set (key : string) (data : Entry) (m : Counts) : Counts :=
  fun k => if String.eqb k key then Some data else m k.

(** The sweep that [setInterval] runs: entries whose window ended more
    than a window ago are deleted. *)
Definition sweep (cfg : Config) (now : Z) (m : Counts) : Counts :=
  fun k =>
    match m k with
    | Some data => if windowMs cfg <? now - resetTime data then None else Some data
    | None => None
    end.

Inductive Verdict :=
| Next (limit remaining reset : Z)      (* next(), with the rate-limit headers *)
| TooManyRequests (retryAfter : Z).     (* 429 *)

(** [Math.ceil(ms / 1000)], for times that are integers below 2^53. *)
Definition ceil_seconds (ms : Z) : Z := - ((- ms) / 1000).

(** [req.ip || 'unknown']. *)
Definition key_of (ip : option string) : string :=
  match ip with
  | Some EmptyString | None => "unknown"
  | Some s => s
  end.

(** [rateLimiter]: the entry found in the map is the object the
    middleware updates, so the restart of its window is stored also when
    the request is then refused; an entry made for a key the map does not
    hold is stored only by [requestCounts.set]. *)
Definition rateLimiter (cfg : Config) (ip : option string) (now : Z)
    (m : Counts) : Verdict * Counts :=
  let key := key_of ip in
  let found := m key in
  let requestData :=
    match found with
    | Some data => data
    | None => mkEntry 0 (now + windowMs cfg)
    end in
  let requestData :=
    if resetTime requestData <? now
    then mkEntry 0 (now + windowMs cfg)
    else requestData in
  if maxRequests cfg <=? count requestData
  then (TooManyRequests (ceil_seconds (resetTime requestData - now)),
        match found with
        | Some _ => set key requestData m
        | None => m
        end)
  else
    let requestData := mkEntry (count requestData + 1) (resetTime requestData) in
    (Next (maxRequests cfg)
          (Z.max 0 (maxRequests cfg - count requestData))
          (resetTime requestData),
     set key requestData m).

(** Requests of one client at the given times, in sequence. *)
Fixpoint serve (cfg : Config) (ip : option string) (times : list Z) (m : Counts)
    : list Verdict * Counts :=
  match times with
  | [] => ([], m)
  | now :: rest =>
      let (v, m1) := rateLimiter cfg ip now m in
      let (vs, m2) := serve cfg ip rest m1 in
      (v :: vs, m2)
  end.

Definition admitted (v : Verdict) : bool :=
  match v with
  | Next _ _ _ => true
  | TooManyRequests _ => false
  end.

End RateLimiter.

(* ===================================================================== *)
(** ** The authentication middleware *)
(* ===================================================================== *)

Module Auth.

Local Open Scope string_scope.

(** [req.headers]: the value of a header, by its lower-case name. *)
Definition Headers := string -> option string.

Definition with_header (name value : string) (headers : Headers) : Headers :=
  fun n => if String.eqb n name then Some value else headers n.

(** [s] without the prefix [pat], when it starts with it. *)
Fixpoint strip_prefix (pat s : string) : option string :=
  match pat with
  | EmptyString => Some s
  | String a pat' =>
      match s with
      | String b s' => if Ascii.eqb a b then strip_prefix pat' s' else None
      | EmptyString => None
      end
  end.

(** [s.replace(pat, '')]: the first occurrence of [pat] is removed. *)
Fixpoint replace_first (pat s : string) : string :=
  match strip_prefix pat s with
  | Some rest => rest
  | None =>
      match s with
      | EmptyString => EmptyString
      | String c s' => String c (replace_first pat s')
      end
  end.

(** A header value that is a non-empty string. *)
Definition truthy_header (v : option string) : option string :=
  match v with
  | Some EmptyString | None => None
  | Some s => Some s
  end.

(** [req.headers['x-api-key'] ||
     req.headers['authorization']?.replace('Bearer ', '')], when it is
    a non-empty string. *)
Definition presented_key (headers : Headers) : option string :=
  match truthy_header (headers "x-api-key") with
  | Some k => Some k
  | None => truthy_header (option_map (replace_first "Bearer ")
                                      (headers "authorization"))
  end.

Inductive Outcome :=
| Continue (user : option string)     (* next(), with req.user.id if set *)
| Unauthorized (message : string)     (* 401 *)
| Forbidden (message : string).       (* 403 *)

(** [authMiddleware]; [configured] is
    [process.env.OPENROUTER_AGENT_API_KEY]. *)
Definition authMiddleware (configured : option string) (headers : Headers)
    : Outcome :=
  match presented_key headers with
  | None => Unauthorized "API key required"
  | Some apiKey =>
      match configured with
      | Some k =>
          if String.eqb apiKey k
          then Continue (truthy_header (headers "x-user-id"))
          else Unauthorized "Invalid API key"
      | None => Unauthorized "Invalid API key"
      end
  end.

(** [requireAdmin]: the role is read from the request's own header. *)
Definition requireAdmin (headers : Headers) (user : option string) : Outcome :=
  match truthy_header (headers "x-user-role") with
  | Some userRole =>
      if String.eqb userRole "admin" || String.eqb userRole "superadmin"
      then Continue user
      else Forbidden "Admin access required"
  | None => Forbidden "Admin access required"
  end.

(** [requireUser]. *)
Definition requireUser (user : option string) : Outcome :=
  match user with
  | Some _ => Continue user
  | None => Unauthorized "User authentication required"
  end.

(** The middlewares in front of the admin routes:
    [app.use('/api/admin', authMiddleware, adminController)] and
    [router.use(requireAdmin)]. *)
Definition admin_gate (configured : option string) (headers : Headers)
    : Outcome :=
  match authMiddleware configured headers with
  | Continue user => requireAdmin headers user
  | refused => refused
  end.

End Auth.

(* ===================================================================== *)
(** ** The daily report *)
(* ===================================================================== *)

(** An entry of [topUsers] in the daily report (the user name, which
    comes from the joined profile, is left out). *)
Record TopUser := mkTopUser {
  tu_userId : uuid;
  tu_usage : cents;
  tu_limit : option cents
}.

(** [usersWithKeys.sort((a, b) => (b.current_usage || 0) -
    (a.current_usage || 0))]: a stable sort by usage, highest first.  The
    comparator subtracts the usages as numbers; for amounts in cents
    within the precision of the column the sign of that difference is
    the sign of the difference of the amounts. *)
Fixpoint insert_by_usage (r : KeyRow) (l : list KeyRow) : list KeyRow :=
  match l with
  | [] => [r]
  | x :: xs =>
      if current_usage x <=? current_usage r then r :: l
      else x :: insert_by_usage r xs
  end.

Definition sort_by_usage (l : list KeyRow) : list KeyRow :=
  fold_right insert_by_usage [] l.

(** [.slice(0, 10).map(user => ({userId, usage, limit}))]. *)
Definition topUsers (usersWithKeys : list KeyRow) : list TopUser :=
  map (fun user => mkTopUser (user_id user) (current_usage user)
                             (monthly_limit user))
      (firstn 10 (sort_by_usage usersWithKeys)).

(** A list of amounts, highest first. *)
Definition highest_first (l : list cents) : Prop :=
  Sorted (fun a b => b <= a) l.

(* ===================================================================== *)
(** ** Sample data for concrete runs *)
(* ===================================================================== *)

Definition sample_time (day usec : Z) : Timestamp :=
  mkTs (mkDate 2025 3 day) usec.

(** An environment in which the provider answers with a key. *)
Definition env_ok (day : Z) (fresh : uuid) (providerKeyId : string) : Env :=
  mkEnv (sample_time day 0) fresh
        (Some (mkProviderKey providerKeyId "Formul8 User"%string "sk-or-v1"%string))
        true None.

(** An environment in which the provider call fails. *)
Definition env_down (day : Z) (fresh : uuid) : Env :=
  mkEnv (sample_time day 0) fresh None false None.

(** An active key of [userId] as [createUserApiKey] leaves it, with the
    given limit and usage. *)
Definition sample_key (keyId userId : uuid) (day : Z) (limit : option cents)
    (usage : cents) : KeyRow :=
  mkKeyRow keyId userId "or-key"%string "Formul8 User"%string None limit usage
           (mkDate 2025 3 1) active (sample_time day 0) (sample_time day 0) None.

(** A usage report that carries only a model and a cost. *)
Definition usage_of (cost : micros) : UsageData :=
  mkUsageData (Some "anthropic/claude-3.5-sonnet"%string) None None None
              (Some cost) None None None.

(** A report of [cost] against key 10 of user 1; [n] numbers the log row. *)
Definition report (n : uuid) (cost : micros) : LogCall :=
  mkLogCall (mkEnv (sample_time 20 n) n None true None) 1 10 (usage_of cost).

(** A store with one fresh active key of user 1, limit 10.00. *)
Definition fresh_db : DB := mkDB [sample_key 10 1 3 (Some 1000) 0] [].

(** Three users with one active key each; user 1's is the newest, so the
    batch rotation visits users 1, 2, 3 in this order. *)
Definition three_users_db : DB :=
  mkDB [ sample_key 30 3 1 (Some 1000) 100;
         sample_key 20 2 2 (Some 5000) 1200;
         sample_key 10 1 3 None 0 ] [].

(** The provider answers the first and the third call and fails the second. *)
Definition second_call_fails (i : nat) : Env :=
  match i with
  | 0%nat => env_ok 20 40 "or-new-1"
  | 1%nat => env_down 20 41
  | _ => env_ok 20 42 "or-new-3"
  end.

(** An environment whose subscription lookup answers with [plan]. *)
Definition env_plan_is (plan : string) : Env :=
  mkEnv (sample_time 14 0) 50
        (Some (mkProviderKey "or-a" "Formul8 User" "sk-or-v1")) true (Some plan).

(** User 1's only record is inactive. *)
Definition inactive_db : DB :=
  mkDB [set_status inactive (sample_key 10 1 3 (Some 5000) 1200)] [].

(** User 1 has an active key without limit. *)
Definition unlimited_db : DB := mkDB [sample_key 10 1 3 None 250] [].

(** A store with one active key, limit 50.00 and usage 12.00, of user 1. *)
Definition sample_db : DB := mkDB [sample_key 10 1 3 (Some 5000) 1200] [].

Definition sample_ops : list Op :=
  [ createKeyForUser (env_ok 14 11 "or-b") 1 (Some 2000);
    rotateKeyForUser (env_ok 15 12 "or-c") 1 false;
    createKeyForUser (env_ok 16 13 "or-d") 2 None;
    deactivateKeyForUser (env_ok 17 14 "or-e") 2;
    rotateKeyForUser (env_down 18 15) 1 true ].

(** Reports, a reset, a batch rotation and lifecycle operations mixed. *)
Definition sample_store_ops : list StoreOp :=
  [ logUsage (mkLogCall (env_down 19 101) 1 10 (usage_of 2504000));
    lifecycle (rotateKeyForUser (env_ok 20 12 "or-c") 1 false);
    logUsage (mkLogCall (env_down 21 102) 1 12 (usage_of 999999));
    lifecycle (createKeyForUser (env_ok 22 13 "or-d") 2 None);
    rotateAllKeys second_call_fails;
    resetAllUsage (mkEnv (mkTs (mkDate 2025 4 1) 0) 0 None true None);
    logUsage (mkLogCall (env_down 23 103) 1 40 (usage_of 10000)) ].

(** An environment whose clock reads a day of April 2025. *)
Definition env_april (day : Z) : Env :=
  mkEnv (mkTs (mkDate 2025 4 day) 0) 0 None false None.

(** The limiter's defaults (15 minutes, 100 requests) and a small limit. *)
Definition default_limits : RateLimiter.Config := RateLimiter.mkConfig 900000 100.
Definition two_per_minute : RateLimiter.Config := RateLimiter.mkConfig 60000 2.

(** A map that holds one entry, for the client at 10.0.0.1. *)
Definition one_client (count resetTime : Z) : RateLimiter.Counts :=
  RateLimiter.set "10.0.0.1" (RateLimiter.mkEntry count resetTime)
                  RateLimiter.no_counts.

(** Request headers that carry the key as a bearer token, and headers
    that carry it in [x-api-key] together with a user id. *)
Definition bearer_headers : Auth.Headers :=
  Auth.with_header "authorization" "Bearer s3cret" (fun _ => None).

Definition key_headers : Auth.Headers :=
  Auth.with_header "x-api-key" "s3cret"
    (Auth.with_header "x-user-id" "user-7" (fun _ => None)).

(** Twelve active keys of twelve users, with usages 0.00, 1.00, ... *)
Definition twelve_keys : list KeyRow :=
  map (fun n => sample_key (100 + n) n 3 (Some 5000) (100 * (n mod 7)))
      [1; 2; 3; 4; 5; 6; 7; 8; 9; 10; 11; 12].

(* ===================================================================== *)
(** * Properties *)
(* ===================================================================== *)

(** Case analysis on every test a store call makes before it writes. *)
Ltac case_ifs :=
  repeat match goal with
         | |- context [if ?c then _ else _] => destruct c
         end.

(** ** Basic facts about the queries *)

Lemma getUserApiKey_found (u : uuid) (db : DB) (k : KeyRow) :
  fst (getUserApiKey u db) = Ok (Some k) -> latest (active_rows u db) = Some k.
Proof. unfold getUserApiKey; simpl. now intros [= ->]. Qed.

Lemma latest_nil_inv (l : list KeyRow) : latest l = None -> l = [].
Proof.
  destruct l as [|r rest]; [reflexivity|].
  simpl. destruct (latest rest) as [r'|]; [|discriminate].
  destruct (ts_leb (created_at r') (created_at r)); discriminate.
Qed.

Lemma latest_singleton (r : KeyRow) : latest [r] = Some r.
Proof. reflexivity. Qed.

Lemma latest_In (l : list KeyRow) (r : KeyRow) : latest l = Some r -> In r l.
Proof.
  revert r. induction l as [|x rest IH]; intros r; simpl; [discriminate|].
  destruct (latest rest) as [r'|].
  - destruct (ts_leb (created_at r') (created_at x)); intros [= <-]; auto.
  - intros [= <-]; auto.
Qed.

Lemma filter_length_map_ext {A} (p : A -> bool) (f : A -> A) (l : list A) :
  (forall x, p (f x) = p x) ->
  List.length (filter p (map f l)) = List.length (filter p l).
Proof.
  intros Hp. induction l as [|x rest IH]; simpl; [reflexivity|].
  rewrite Hp. destruct (p x); simpl; congruence.
Qed.

Lemma filter_map_none {A} (p : A -> bool) (f : A -> A) (l : list A) :
  (forall x, p (f x) = false) -> filter p (map f l) = [].
Proof.
  intros Hp. induction l as [|x rest IH]; simpl; [reflexivity|].
  now rewrite Hp.
Qed.

Lemma status_eqb_eq (a b : Status) : status_eqb a b = true <-> a = b.
Proof. destruct a, b; simpl; split; congruence. Qed.

Lemma is_active_of_spec (u : uuid) (r : KeyRow) :
  is_active_of u r = true <-> user_id r = u /\ status r = active.
Proof.
  unfold is_active_of. rewrite andb_true_iff, Z.eqb_eq, status_eqb_eq.
  tauto.
Qed.

(** ** What each store call does to the active records *)

Lemma deactivate_row_other (e : Env) (u v : uuid) (r : KeyRow) :
  v <> u -> is_active_of v (deactivate_row e u r) = is_active_of v r.
Proof.
  intros Hvu. unfold deactivate_row.
  destruct (is_active_of u r) eqn:Hu; [|reflexivity].
  apply is_active_of_spec in Hu. destruct Hu as [Hid _].
  unfold is_active_of; simpl. rewrite Hid.
  destruct (Z.eqb_spec u v); [congruence|reflexivity].
Qed.

Lemma deactivate_row_same (e : Env) (u : uuid) (r : KeyRow) :
  is_active_of u (deactivate_row e u r) = false.
Proof.
  unfold deactivate_row. destruct (is_active_of u r) eqn:Hu; [|exact Hu].
  unfold is_active_of; simpl. apply andb_false_r.
Qed.

Lemma deactivateUserApiKey_err (e : Env) (u : uuid) (db db' : DB) (err : Error) :
  deactivateUserApiKey e u db = (Err err, db') -> db' = db /\ err = PGRST116.
Proof.
  unfold deactivateUserApiKey.
  destruct (active_rows u db) as [|r [|r2 rest]]; intros [= <- <-]; auto.
Qed.

Lemma deactivateUserApiKey_ok (e : Env) (u : uuid) (db db' : DB) (r' : KeyRow) :
  deactivateUserApiKey e u db = (Ok r', db') ->
  exists r, active_rows u db = [r]
    /\ r' = deactivate_row e u r
    /\ db' = mkDB (map (deactivate_row e u) (user_api_keys db)) (api_usage_logs db).
Proof.
  unfold deactivateUserApiKey.
  destruct (active_rows u db) as [|r [|r2 rest]]; intros [= <- <-].
  exists r. auto.
Qed.

Lemma createUserApiKey_err (e : Env) (u : uuid) (k n : string) (l : JsLimit)
    (db db' : DB) (err : Error) :
  createUserApiKey e u k n l db = (Err err, db') -> db' = db.
Proof.
  unfold createUserApiKey. destruct (column_of_js l) as [lim|]; [|now intros [= _ <-]].
  case_ifs; now intros [= <-] || now intros [= _ <-].
Qed.

Lemma createUserApiKey_ok (e : Env) (u : uuid) (k n : string) (l : JsLimit)
    (db db' : DB) (row : KeyRow) :
  createUserApiKey e u k n l db = (Ok row, db') ->
  exists lim, column_of_js l = Some lim
    /\ row = new_key_row e u k n lim
    /\ has_key_id (env_uuid e) (user_api_keys db) = false
    /\ db' = mkDB (user_api_keys db ++ [row]) (api_usage_logs db).
Proof.
  unfold createUserApiKey. destruct (column_of_js l) as [lim|]; [|discriminate].
  destruct (negb (key_row_fits _)); [discriminate|].
  destruct (negb (key_row_checks _)); [discriminate|].
  simpl id. destruct (has_key_id _ _) eqn:Hid; [discriminate|].
  intros [= <- <-]. exists lim. auto.
Qed.

Lemma active_count_deactivated_other (e : Env) (u v : uuid) (db : DB) :
  v <> u ->
  active_count v (mkDB (map (deactivate_row e u) (user_api_keys db)) (api_usage_logs db))
  = active_count v db.
Proof.
  intros Hvu. unfold active_count, active_rows; simpl.
  apply filter_length_map_ext. intros r. now apply deactivate_row_other.
Qed.

Lemma active_rows_deactivated_same (e : Env) (u : uuid) (db : DB) :
  active_rows u (mkDB (map (deactivate_row e u) (user_api_keys db)) (api_usage_logs db))
  = [].
Proof.
  unfold active_rows; simpl. apply filter_map_none.
  intros r. apply deactivate_row_same.
Qed.

Lemma active_rows_inserted (e : Env) (u v : uuid) (k n : string)
    (lim : option cents) (db : DB) :
  active_rows v (mkDB (user_api_keys db ++ [new_key_row e u k n lim]) (api_usage_logs db))
  = active_rows v db ++ (if Z.eqb u v then [new_key_row e u k n lim] else []).
Proof.
  unfold active_rows; simpl. rewrite filter_app. simpl.
  unfold is_active_of at 2; simpl. rewrite andb_true_r.
  now destruct (Z.eqb u v).
Qed.

(** ** The lifecycle operations keep at most one active record per user *)

Lemma unique_active_after_insert (e : Env) (u : uuid) (k n : string)
    (lim : option cents) (db : DB) :
  unique_active db ->
  active_rows u db = [] ->
  unique_active
    (mkDB (user_api_keys db ++ [new_key_row e u k n lim]) (api_usage_logs db)).
Proof.
  intros Hinv Hnone v. unfold active_count. rewrite active_rows_inserted.
  destruct (Z.eqb_spec u v) as [<-|Hne].
  - rewrite Hnone. simpl. lia.
  - rewrite app_nil_r. apply Hinv.
Qed.

Lemma unique_active_after_deactivate (e : Env) (u : uuid) (db : DB) :
  unique_active db ->
  unique_active
    (mkDB (map (deactivate_row e u) (user_api_keys db)) (api_usage_logs db)).
Proof.
  intros Hinv v. destruct (Z.eq_dec v u) as [->|Hne].
  - unfold active_count. rewrite active_rows_deactivated_same. simpl. lia.
  - rewrite active_count_deactivated_other by assumption. apply Hinv.
Qed.

Lemma deactivateUserApiKey_unique (e : Env) (u : uuid) (db : DB) :
  unique_active db -> unique_active (snd (deactivateUserApiKey e u db)).
Proof.
  intros Hinv. destruct (deactivateUserApiKey e u db) as [[r'|err] db'] eqn:Hd; simpl.
  - apply deactivateUserApiKey_ok in Hd. destruct Hd as (r & _ & _ & ->).
    now apply unique_active_after_deactivate.
  - apply deactivateUserApiKey_err in Hd. destruct Hd as [-> _]. exact Hinv.
Qed.

Lemma createUserApiKey_unique (e : Env) (u : uuid) (k n : string) (l : JsLimit)
    (db : DB) :
  unique_active db ->
  active_rows u db = [] ->
  unique_active (snd (createUserApiKey e u k n l db)).
Proof.
  intros Hinv Hnone.
  destruct (createUserApiKey e u k n l db) as [[row|err] db'] eqn:Hc; simpl.
  - apply createUserApiKey_ok in Hc. destruct Hc as (lim & _ & -> & _ & ->).
    now apply unique_active_after_insert.
  - apply createUserApiKey_err in Hc. now subst.
Qed.

(** [rotateUserKey], written out by cases on what the store holds and on
    what the provider answers. *)
Lemma rotateUserKey_cases (e : Env) (u : uuid) (d : bool) (db : DB) :
  rotateUserKey e u d db =
  match latest (active_rows u db) with
  | None => (Err (NoActiveKey u), db)
  | Some cur =>
      match active_rows u db with
      | [_] =>
          let db1 := mkDB (map (deactivate_row e u) (user_api_keys db))
                          (api_usage_logs db) in
          match env_provider e with
          | None => (Err ProviderError, db1)
          | Some pk =>
              match createUserApiKey e u (pk_id pk) (pk_name pk)
                      (js_of_column (monthly_limit cur)) db1 with
              | (Ok row, db2) => (Ok (mkRotation cur row), db2)
              | (Err err, db2) => (Err err, db2)
              end
          end
      | _ => (Err PGRST116, db)
      end
  end.
Proof.
  unfold rotateUserKey, bind, getUserApiKey.
  destruct (latest (active_rows u db)) as [cur|]; [|reflexivity].
  unfold deactivateUserApiKey.
  destruct (active_rows u db) as [|r [|r2 rest]]; try reflexivity.
  unfold createUserKey. destruct (env_provider e) as [pk|]; [|reflexivity].
  destruct (createUserApiKey e u (pk_id pk) (pk_name pk)
              (js_of_column (monthly_limit cur)) _) as [[row|err] db2];
    [|reflexivity].
  destruct d; [unfold try_warn, deleteKey; destruct (env_delete_ok e)|];
    reflexivity.
Qed.

Lemma rotateUserKey_unique (e : Env) (u : uuid) (d : bool) (db : DB) :
  unique_active db -> unique_active (snd (rotateUserKey e u d db)).
Proof.
  intros Hinv. rewrite rotateUserKey_cases.
  destruct (latest (active_rows u db)) as [cur|]; [|exact Hinv].
  destruct (active_rows u db) as [|r [|r2 rest]] eqn:Hrows; try exact Hinv.
  cbv zeta.
  pose proof (unique_active_after_deactivate e u db Hinv) as Hinv1.
  destruct (env_provider e) as [pk|]; [|exact Hinv1].
  pose proof (createUserApiKey_unique e u (pk_id pk) (pk_name pk)
                (js_of_column (monthly_limit cur)) _ Hinv1
                (active_rows_deactivated_same e u db)) as Hinv2.
  destruct (createUserApiKey _ _ _ _ _ _) as [[row|err] db2]; exact Hinv2.
Qed.

Lemma create_user_unique (e : Env) (u : uuid) (l : option cents) (db : DB) :
  unique_active db -> unique_active (snd (create_user e u l db)).
Proof.
  intros Hinv. unfold create_user.
  destruct (match l with Some m => m <=? 0 | None => false end); [exact Hinv|].
  unfold getUserApiKey.
  destruct (latest (active_rows u db)) as [existing|] eqn:Hlatest; [exact Hinv|].
  apply latest_nil_inv in Hlatest.
  unfold bind, createUserKey.
  destruct (env_provider e) as [pk|]; [|exact Hinv].
  set (finalLimit := js_or _ _).
  pose proof (createUserApiKey_unique e u (pk_id pk) (pk_name pk) finalLimit
                db Hinv Hlatest) as Hinv2.
  destruct (createUserApiKey _ _ _ _ _ _) as [[row|err] db2]; exact Hinv2.
Qed.

Lemma step_unique (db : DB) (op : Op) :
  unique_active db -> unique_active (step db op).
Proof.
  intros Hinv. destruct op as [e u l|e u d|e u]; simpl.
  - now apply create_user_unique.
  - now apply rotateUserKey_unique.
  - now apply deactivateUserApiKey_unique.
Qed.

Lemma run_unique (ops : list Op) (db : DB) :
  unique_active db -> unique_active (run ops db).
Proof.
  revert db. induction ops as [|op ops IH]; intros db Hinv; simpl.
  - exact Hinv.
  - apply IH. now apply step_unique.
Qed.

Lemma unique_active_empty : unique_active empty_db.
Proof. intros u. cbv. lia. Qed.

Lemma create_user_conflict (e : Env) (u : uuid) (l : option cents) (db : DB) :
  (forall m, l = Some m -> 0 < m) ->
  (1 <= active_count u db)%nat ->
  exists k, In k (active_rows u db) /\ create_user e u l db = (Conflict k, db).
Proof.
  intros Hvalid Hsome. unfold create_user.
  replace (match l with Some m => m <=? 0 | None => false end) with false.
  2:{ destruct l as [m|]; [|reflexivity].
      specialize (Hvalid m eq_refl). symmetry. apply Z.leb_gt. lia. }
  unfold getUserApiKey.
  destruct (latest (active_rows u db)) as [k|] eqn:Hlatest.
  - exists k. split; [now apply latest_In|reflexivity].
  - apply latest_nil_inv in Hlatest. unfold active_count in Hsome.
    rewrite Hlatest in Hsome. simpl in Hsome. lia.
Qed.

Lemma rotateUserKey_ok (e : Env) (u : uuid) (d : bool) (db db' : DB) (r : Rotation) :
  rotateUserKey e u d db = (Ok r, db') ->
  active_rows u db = [oldKey r]
  /\ user_api_keys db'
     = map (deactivate_row e u) (user_api_keys db) ++ [newKey r]
  /\ api_usage_logs db' = api_usage_logs db
  /\ exists pk, env_provider e = Some pk
       /\ newKey r = new_key_row e u (pk_id pk) (pk_name pk)
                       (monthly_limit (oldKey r)).
Proof.
  rewrite rotateUserKey_cases.
  destruct (latest (active_rows u db)) as [cur|] eqn:Hlatest; [|discriminate].
  destruct (active_rows u db) as [|r0 [|r2 rest]]; try discriminate.
  cbv zeta. injection Hlatest as <-.
  destruct (env_provider e) as [pk|]; [|discriminate].
  destruct (createUserApiKey _ _ _ _ _ _) as [[row|err] db2] eqn:Hc;
    [|discriminate].
  intros [= <- <-]. simpl.
  apply createUserApiKey_ok in Hc. destruct Hc as (lim & Hlim & -> & _ & ->).
  simpl. repeat split. exists pk. split; [reflexivity|].
  destruct (monthly_limit r0); simpl in Hlim; now injection Hlim as <-.
Qed.

(** C1. Starting from a store in which every user has at most one active
    record, every sequence of create, rotate and deactivate operations
    leaves at most one active record per user.  Create answers Conflict,
    with the existing record and without writing, when the user has an
    active record; a successful rotation has deactivated the user's
    active record and then appended the new active one. *)
Theorem lifecycle_keeps_one_active_key (db : DB) (Hinv : unique_active db) :
  (forall ops u, (active_count u (run ops db) <= 1)%nat)
  /\ (forall e u l,
        (forall m, l = Some m -> 0 < m) ->
        (1 <= active_count u db)%nat ->
        exists k, In k (active_rows u db)
                  /\ create_user e u l db = (Conflict k, db))
  /\ (forall e u d r db',
        rotateUserKey e u d db = (Ok r, db') ->
        active_rows u db = [oldKey r]
        /\ user_api_keys db'
           = map (deactivate_row e u) (user_api_keys db) ++ [newKey r]
        /\ status (newKey r) = active
        /\ user_id (newKey r) = u).
Proof.
  split; [|split].
  - intros ops u. now apply run_unique.
  - intros e u l. apply create_user_conflict.
  - intros e u d r db' Hrot. apply rotateUserKey_ok in Hrot.
    destruct Hrot as (Hold & Hkeys & _ & pk & _ & Hnew).
    repeat split; try assumption; rewrite Hnew; reflexivity.
Qed.

Lemma lifecycle_keeps_one_active_key_witness :
  (active_count 1%Z (run sample_ops sample_db) <= 1)%nat.
Proof.
  apply (proj1 (lifecycle_keeps_one_active_key sample_db
                  ltac:(intros u; cbv [active_count active_rows sample_db sample_key
                               user_api_keys filter is_active_of user_id];
                        destruct (1 =? u); simpl; lia))).
Defined.

(** ** Usage accounting *)

Lemma round_whole_cents (c k : Z) :
  round_micros_to_cents (cents_to_micros c + cents_to_micros k) = c + k.
Proof.
  unfold round_micros_to_cents, cents_to_micros.
  destruct (0 <=? c * 10000 + k * 10000) eqn:Hsign.
  - replace (c * 10000 + k * 10000 + 5000) with (5000 + (c + k) * 10000) by ring.
    rewrite Z.div_add by lia. reflexivity.
  - replace (- (c * 10000 + k * 10000) + 5000)
      with (5000 + (- (c + k)) * 10000) by ring.
    rewrite Z.div_add by lia. change (5000 / 10000) with 0. lia.
Qed.

Lemma logged_cost_appended (keyId : uuid) (keys : list KeyRow) (db : DB)
    (row : LogRow) :
  logged_cost keyId (mkDB keys (api_usage_logs db ++ [row]))
  = logged_cost keyId db
    + (if api_key_id row =? keyId then cost_usd row else 0).
Proof.
  unfold logged_cost; simpl. rewrite filter_app, map_app. simpl.
  induction (map cost_usd (filter _ (api_usage_logs db))) as [|x xs IH]; simpl.
  - destruct (api_key_id row =? keyId); simpl; lia.
  - rewrite IH. lia.
Qed.

Lemma logApiUsage_err (e : Env) (u k : uuid) (d : UsageData) (db db' : DB)
    (err : Error) :
  logApiUsage e u k d db = (Err err, db') -> db' = db.
Proof.
  unfold logApiUsage. destruct (ud_model d) as [m|]; [|now intros [= _ <-]].
  case_ifs; now intros [= <-] || now intros [= _ <-].
Qed.

Lemma logApiUsage_ok (e : Env) (u k : uuid) (d : UsageData) (db db' : DB)
    (row : LogRow) :
  logApiUsage e u k d db = (Ok row, db') ->
  api_key_id row = k
  /\ cost_usd row = or_zero (ud_costUsd d)
  /\ 0 <= cost_usd row
  /\ has_key_id k (user_api_keys db) = true
  /\ db' = mkDB (update_user_usage e row (user_api_keys db))
                (api_usage_logs db ++ [row]).
Proof.
  unfold logApiUsage. destruct (ud_model d) as [m|]; [|discriminate].
  destruct (negb (log_row_fits _)); [discriminate|].
  destruct (negb (log_row_checks _)) eqn:Hchecks; [discriminate|].
  destruct (has_log_id _ _); [discriminate|].
  destruct (has_key_id _ _) eqn:Hfk; [|discriminate]. simpl negb. cbv iota.
  destruct (negb (forallb key_row_fits _)); [discriminate|].
  destruct (negb (forallb key_row_checks _)); [discriminate|].
  intros [= <- <-]. simpl. repeat split.
  apply negb_false_iff in Hchecks. unfold log_row_checks in Hchecks. simpl in Hchecks.
  rewrite !andb_true_iff in Hchecks. destruct Hchecks as [_ Hcost].
  now apply Z.leb_le.
Qed.

(** Reports of whole cents keep each key's usage equal to the sum of the
    costs logged against it. *)
Lemma log_step_conserves_whole_cents (db : DB) (c : LogCall) :
  whole_cents c -> usage_conserved db -> usage_conserved (log_step db c).
Proof.
  intros [k Hk] Hcons. unfold log_step.
  destruct (logApiUsage _ _ _ _ db) as [[row|err] db'] eqn:Hlog; simpl.
  - apply logApiUsage_ok in Hlog.
    destruct Hlog as (Hkey & Hcost & _ & _ & ->).
    intros r' Hin. simpl in Hin. unfold update_user_usage in Hin.
    apply in_map_iff in Hin. destruct Hin as (r & <- & Hin).
    specialize (Hcons r Hin). rewrite logged_cost_appended.
    destruct (Z.eqb_spec (id r) (api_key_id row)) as [Heq|Hne].
    + unfold add_usage; simpl. rewrite Heq, Z.eqb_refl. rewrite Heq in Hcons.
      rewrite Hcost, Hk, round_whole_cents, <- Hcons.
      unfold cents_to_micros. lia.
    + rewrite <- Hcons.
      replace (api_key_id row =? id r) with false
        by (symmetry; apply Z.eqb_neq; congruence).
      lia.
  - apply logApiUsage_err in Hlog. now subst.
Qed.

Lemma log_all_conserves_whole_cents (calls : list LogCall) (db : DB) :
  Forall whole_cents calls -> usage_conserved db ->
  usage_conserved (log_all calls db).
Proof.
  revert db. induction calls as [|c calls IH]; intros db Hall Hcons; simpl.
  - exact Hcons.
  - inversion Hall; subst. apply IH; [assumption|].
    now apply log_step_conserves_whole_cents.
Qed.

(** ** One rotation *)

Lemma filter_map_unselected {A} (p : A -> bool) (f : A -> A) (l : list A) :
  (forall x, p x = true -> f x = x) ->
  (forall x, p x = false -> p (f x) = false) ->
  filter p (map f l) = filter p l.
Proof.
  intros Hkeep Hskip. induction l as [|x rest IH]; simpl; [reflexivity|].
  destruct (p x) eqn:Hpx.
  - rewrite (Hkeep x Hpx), Hpx, IH. reflexivity.
  - rewrite (Hskip x Hpx), IH. reflexivity.
Qed.

Lemma latest_unique (l : list KeyRow) (k : KeyRow) :
  latest l = Some k -> (List.length l <= 1)%nat -> l = [k].
Proof.
  destruct l as [|r [|r2 rest]]; simpl; intros Hl Hlen.
  - discriminate.
  - now injection Hl as ->.
  - lia.
Qed.

Section OneRotation.

(** The rotation of user [u]'s key in environment [e]. *)
Variables (e : Env) (u : uuid).

Lemma active_rows_deactivated_other (v : uuid) (db : DB) :
  v <> u -> active_rows v (deactivated e u db) = active_rows v db.
Proof.
  intros Hvu. unfold active_rows, deactivated; simpl.
  apply filter_map_unselected; intros r Hr.
  - unfold deactivate_row. destruct (is_active_of u r) eqn:Hu; [|reflexivity].
    apply is_active_of_spec in Hr, Hu. destruct Hr, Hu. congruence.
  - rewrite deactivate_row_other; assumption.
Qed.

Lemma has_key_id_deactivated (i : uuid) (db : DB) :
  has_key_id i (user_api_keys (deactivated e u db))
  = has_key_id i (user_api_keys db).
Proof.
  unfold has_key_id, deactivated; simpl.
  induction (user_api_keys db) as [|r rest IH]; simpl; [reflexivity|].
  rewrite IH. f_equal. unfold deactivate_row.
  now destruct (is_active_of u r).
Qed.

Lemma active_rows_rotated_same (cur : KeyRow) (pk : ProviderKey) (db : DB) :
  active_rows u (rotated e u cur pk db) = [rotated_key e u cur pk].
Proof.
  unfold rotated, rotated_key.
  change (api_usage_logs db) with (api_usage_logs (deactivated e u db)).
  rewrite (active_rows_inserted e u u (pk_id pk) (pk_name pk) (monthly_limit cur)
             (deactivated e u db)).
  unfold deactivated. rewrite active_rows_deactivated_same, Z.eqb_refl.
  reflexivity.
Qed.

Lemma active_rows_rotated_other (v : uuid) (cur : KeyRow) (pk : ProviderKey)
    (db : DB) :
  v <> u -> active_rows v (rotated e u cur pk db) = active_rows v db.
Proof.
  intros Hvu. unfold rotated, rotated_key.
  change (api_usage_logs db) with (api_usage_logs (deactivated e u db)).
  rewrite (active_rows_inserted e u v (pk_id pk) (pk_name pk) (monthly_limit cur)
             (deactivated e u db)).
  rewrite active_rows_deactivated_other by assumption.
  replace (u =? v) with false by (symmetry; apply Z.eqb_neq; congruence).
  apply app_nil_r.
Qed.

(** The store holds exactly one active record of [u]. *)
Variables (db : DB) (cur : KeyRow).
Hypothesis Hrows : active_rows u db = [cur].

(** A rotation whose provider call and insert go through. *)
Lemma rotateUserKey_succeeds (d : bool) (pk : ProviderKey) :
  env_provider e = Some pk ->
  has_key_id (env_uuid e) (user_api_keys db) = false ->
  key_row_checks cur = true -> key_row_fits cur = true ->
  rotateUserKey e u d db
  = (Ok (mkRotation cur (rotated_key e u cur pk)), rotated e u cur pk db).
Proof.
  intros Hpk Hfresh Hchecks Hfits.
  rewrite rotateUserKey_cases, Hrows, latest_singleton, Hpk. cbv zeta.
  unfold createUserApiKey.
  replace (column_of_js (js_of_column (monthly_limit cur)))
    with (Some (monthly_limit cur)) by (now destruct (monthly_limit cur)).
  fold (deactivated e u db). fold (rotated_key e u cur pk).
  assert (Hnew_fits : key_row_fits (rotated_key e u cur pk) = true).
  { unfold key_row_fits in *. simpl.
    apply andb_true_iff in Hfits. destruct Hfits as [-> _]. reflexivity. }
  assert (Hnew_checks : key_row_checks (rotated_key e u cur pk) = true).
  { unfold key_row_checks in *. simpl.
    apply andb_true_iff in Hchecks. destruct Hchecks as [-> _]. reflexivity. }
  rewrite Hnew_fits, Hnew_checks. simpl negb. cbv iota.
  change (id (rotated_key e u cur pk)) with (env_uuid e).
  rewrite has_key_id_deactivated, Hfresh. reflexivity.
Qed.

(** A rotation whose provider call fails: the record stays deactivated. *)
Lemma rotateUserKey_provider_down (d : bool) :
  env_provider e = None ->
  rotateUserKey e u d db = (Err ProviderError, deactivated e u db).
Proof.
  intros Hpk.
  rewrite rotateUserKey_cases, Hrows, latest_singleton, Hpk. reflexivity.
Qed.

Lemma active_row_In :
  In cur (user_api_keys db) /\ is_active_of u cur = true.
Proof.
  apply filter_In. fold (active_rows u db). rewrite Hrows. now left.
Qed.

End OneRotation.

Lemma active_rows_of_lookup (u : uuid) (db : DB) (cur : KeyRow) :
  unique_active db ->
  fst (getUserApiKey u db) = Ok (Some cur) ->
  active_rows u db = [cur].
Proof.
  intros Hinv Hget. apply getUserApiKey_found in Hget.
  apply latest_unique; [assumption|apply Hinv].
Qed.

(** C5. A user's only active key has limit 50.00 and usage 12.00.  A
    rotation without deletion of the old provider key, in which the
    provider answers and the generated row id is unused, succeeds; the
    user's active record is then the new one, with limit 50.00 and usage
    0, and the old record is still stored, inactive, with its usage. *)
Theorem rotation_carries_limit_and_resets_usage
    (db : DB) (e : Env) (u : uuid) (cur : KeyRow) (pk : ProviderKey)
    (Hinv : unique_active db)
    (Hcur : fst (getUserApiKey u db) = Ok (Some cur))
    (Hlimit : monthly_limit cur = Some 5000)
    (Husage : current_usage cur = 1200)
    (Hprovider : env_provider e = Some pk)
    (Hfresh : has_key_id (env_uuid e) (user_api_keys db) = false) :
  exists new db',
    rotateUserKey e u false db = (Ok (mkRotation cur new), db')
    /\ fst (getUserApiKey u db') = Ok (Some new)
    /\ status new = active
    /\ monthly_limit new = Some 5000
    /\ current_usage new = 0
    /\ openrouter_key_id new = pk_id pk
    /\ exists old,
         In old (user_api_keys db')
         /\ id old = id cur
         /\ openrouter_key_id old = openrouter_key_id cur
         /\ status old = inactive
         /\ monthly_limit old = Some 5000
         /\ current_usage old = 1200.
Proof.
  pose proof (active_rows_of_lookup u db cur Hinv Hcur) as Hrows.
  destruct (active_row_In u db cur Hrows) as [Hin Hact].
  exists (rotated_key e u cur pk), (rotated e u cur pk db).
  split; [|split].
  - apply rotateUserKey_succeeds; try assumption.
    + unfold key_row_checks. rewrite Hlimit, Husage. reflexivity.
    + unfold key_row_fits. rewrite Hlimit, Husage. reflexivity.
  - unfold getUserApiKey; simpl. rewrite active_rows_rotated_same. reflexivity.
  - unfold rotated_key; simpl. rewrite Hlimit. repeat split.
    exists (deactivate_row e u cur). split.
    + unfold rotated, deactivated; simpl. apply in_or_app. left.
      now apply in_map.
    + unfold deactivate_row. rewrite Hact. simpl. auto.
Qed.

Lemma rotation_carries_limit_and_resets_usage_witness :
  exists new db',
    rotateUserKey (env_ok 15 12 "or-c") 1 false sample_db
    = (Ok (mkRotation (sample_key 10 1 3 (Some 5000) 1200) new), db')
    /\ fst (getUserApiKey 1 db') = Ok (Some new)
    /\ status new = active
    /\ monthly_limit new = Some 5000
    /\ current_usage new = 0
    /\ openrouter_key_id new = "or-c"%string
    /\ exists old,
         In old (user_api_keys db')
         /\ id old = 10
         /\ openrouter_key_id old = "or-key"%string
         /\ status old = inactive
         /\ monthly_limit old = Some 5000
         /\ current_usage old = 1200.
Proof.
  apply (rotation_carries_limit_and_resets_usage sample_db (env_ok 15 12 "or-c") 1
           (sample_key 10 1 3 (Some 5000) 1200)
           (mkProviderKey "or-c" "Formul8 User" "sk-or-v1")).
  - intros u. cbv [active_count active_rows sample_db sample_key
                   user_api_keys filter is_active_of user_id].
    destruct (1 =? u); simpl; lia.
  - reflexivity.
  - reflexivity.
  - reflexivity.
  - reflexivity.
  - reflexivity.
Defined.

(** ** The batch rotation *)

Lemma insert_desc_In (r x : KeyRow) (l : list KeyRow) :
  In x (insert_desc r l) <-> x = r \/ In x l.
Proof.
  induction l as [|y rest IH]; simpl.
  - intuition congruence.
  - destruct (ts_leb (created_at y) (created_at r)); simpl.
    + intuition congruence.
    + rewrite IH. intuition congruence.
Qed.

Lemma order_by_created_at_desc_In (x : KeyRow) (l : list KeyRow) :
  In x (order_by_created_at_desc l) <-> In x l.
Proof.
  induction l as [|r rest IH]; simpl; [tauto|].
  rewrite insert_desc_In, IH. intuition congruence.
Qed.

Lemma insert_desc_filter_length (p : KeyRow -> bool) (r : KeyRow) (l : list KeyRow) :
  List.length (filter p (insert_desc r l)) = List.length (filter p (r :: l)).
Proof.
  induction l as [|y rest IH]; simpl; [reflexivity|].
  destruct (ts_leb (created_at y) (created_at r)); simpl; [reflexivity|].
  simpl in IH. destruct (p y), (p r); simpl in *; lia.
Qed.

Lemma order_by_created_at_desc_filter_length (p : KeyRow -> bool) (l : list KeyRow) :
  List.length (filter p (order_by_created_at_desc l)) = List.length (filter p l).
Proof.
  induction l as [|r rest IH]; simpl; [reflexivity|].
  rewrite insert_desc_filter_length. simpl.
  destruct (p r); simpl; lia.
Qed.

Lemma active_count_in_listing (u : uuid) (db : DB) (listing : list KeyRow) :
  fst (getAllUsersWithKeys db) = Ok listing ->
  active_count u db = List.length (filter (fun r => user_id r =? u) listing).
Proof.
  unfold getAllUsersWithKeys; simpl. intros [= <-].
  rewrite order_by_created_at_desc_filter_length.
  unfold active_count, active_rows, is_active_of.
  induction (user_api_keys db) as [|r rest IH]; [reflexivity|].
  cbn [filter].
  destruct (status_eqb (status r) active); cbn [filter];
    destruct (user_id r =? u); cbn [andb List.length]; lia.
Qed.

Lemma listed_key_is_the_active_one (db : DB) (listing : list KeyRow) (k : KeyRow) :
  unique_active db ->
  fst (getAllUsersWithKeys db) = Ok listing ->
  In k listing ->
  active_rows (user_id k) db = [k].
Proof.
  intros Hinv Hlist Hin. unfold getAllUsersWithKeys in Hlist; simpl in Hlist.
  injection Hlist as <-.
  apply order_by_created_at_desc_In, filter_In in Hin. destruct Hin as [Hin Hact].
  assert (Hk : In k (active_rows (user_id k) db)).
  { apply filter_In. split; [assumption|].
    unfold is_active_of. now rewrite Z.eqb_refl, Hact. }
  specialize (Hinv (user_id k)). unfold active_count in Hinv.
  destruct (active_rows (user_id k) db) as [|r [|r2 rest]]; simpl in *.
  - contradiction.
  - destruct Hk as [->|[]]. reflexivity.
  - lia.
Qed.

Lemma has_key_id_rotated (e : Env) (u i : uuid) (cur : KeyRow) (pk : ProviderKey)
    (db : DB) :
  has_key_id i (user_api_keys (rotated e u cur pk db))
  = has_key_id i (user_api_keys db) || (env_uuid e =? i).
Proof.
  pose proof (has_key_id_deactivated e u i db) as Hsame.
  unfold rotated, has_key_id in *; simpl user_api_keys in *.
  rewrite existsb_app, Hsame. simpl. now rewrite orb_false_r.
Qed.

Lemma deactivate_row_inert (e : Env) (u : uuid) (r : KeyRow) :
  is_active_of u r = false -> deactivate_row e u r = r.
Proof. intros H. unfold deactivate_row. now rewrite H. Qed.

Lemma In_deactivated (e : Env) (u : uuid) (r : KeyRow) (db : DB) :
  In r (user_api_keys db) ->
  In (deactivate_row e u r) (user_api_keys (deactivated e u db)).
Proof. intros Hin. unfold deactivated; simpl. now apply in_map. Qed.

Lemma In_rotated (e : Env) (u : uuid) (cur : KeyRow) (pk : ProviderKey)
    (r : KeyRow) (db : DB) :
  In r (user_api_keys db) ->
  In (deactivate_row e u r) (user_api_keys (rotated e u cur pk db)).
Proof.
  intros Hin. unfold rotated; simpl. apply in_or_app. left.
  now apply in_map.
Qed.

(** C3, as amended.  The batch rotation visits three active keys; the
    provider answers the first and the third call and fails the second,
    and the generated row ids are unused and distinct.  The manifest is
    [success, failure, success]; the first and the third user end with a
    new active key carrying their limit; the second user's record has been
    deactivated before the provider was called and stays inactive, so
    that user ends with no active key. *)
Theorem batch_rotation_partial_failure
    (db : DB) (envs : nat -> Env) (k1 k2 k3 : KeyRow) (pk1 pk3 : ProviderKey)
    (Hinv : unique_active db)
    (Hschema : schema_ok db)
    (Hlist : fst (getAllUsersWithKeys db) = Ok [k1; k2; k3])
    (Hp1 : env_provider (envs 0%nat) = Some pk1)
    (Hp2 : env_provider (envs 1%nat) = None)
    (Hp3 : env_provider (envs 2%nat) = Some pk3)
    (Hf1 : has_key_id (env_uuid (envs 0%nat)) (user_api_keys db) = false)
    (Hf3 : has_key_id (env_uuid (envs 2%nat)) (user_api_keys db) = false)
    (Hdistinct : env_uuid (envs 0%nat) <> env_uuid (envs 2%nat)) :
  exists db',
    rotateAllUserKeys envs db
    = (Ok [ mkOutcome (user_id k1) true None;
            mkOutcome (user_id k2) false (Some ProviderError);
            mkOutcome (user_id k3) true None ], db')
    /\ fst (getUserApiKey (user_id k1) db')
       = Ok (Some (rotated_key (envs 0%nat) (user_id k1) k1 pk1))
    /\ fst (getUserApiKey (user_id k3) db')
       = Ok (Some (rotated_key (envs 2%nat) (user_id k3) k3 pk3))
    /\ fst (getUserApiKey (user_id k2) db') = Ok None
    /\ fst (getUserApiKey (user_id k2) db) = Ok (Some k2)
    /\ In (update_updated_at_column (envs 1%nat) (set_status inactive k2))
          (user_api_keys db').
Proof.
  set (u1 := user_id k1). set (u2 := user_id k2). set (u3 := user_id k3).
  assert (Hr1 : active_rows u1 db = [k1])
    by (apply (listed_key_is_the_active_one db [k1; k2; k3]); simpl; auto).
  assert (Hr2 : active_rows u2 db = [k2])
    by (apply (listed_key_is_the_active_one db [k1; k2; k3]); simpl; auto).
  assert (Hr3 : active_rows u3 db = [k3])
    by (apply (listed_key_is_the_active_one db [k1; k2; k3]); simpl; auto).
  assert (Hne : u2 <> u1 /\ u3 <> u1 /\ u3 <> u2).
  { pose proof (active_count_in_listing u1 db _ Hlist) as H1.
    pose proof (active_count_in_listing u2 db _ Hlist) as H2.
    pose proof (Hinv u1) as Hle1. pose proof (Hinv u2) as Hle2.
    rewrite H1 in Hle1. rewrite H2 in Hle2. clear H1 H2.
    cbn [filter] in Hle1, Hle2. fold u1 u2 u3 in Hle1, Hle2.
    rewrite Z.eqb_refl in Hle1.
    destruct (Z.eqb_spec u2 u1) as [E21|N21]; [exfalso|].
    { destruct (u3 =? u1); cbn [List.length] in Hle1; lia. }
    destruct (Z.eqb_spec u3 u1) as [E31|N31];
      [exfalso; cbn [List.length] in Hle1; lia|].
    destruct (u1 =? u2); rewrite Z.eqb_refl in Hle2;
      destruct (Z.eqb_spec u3 u2) as [E32|N32];
      cbn [List.length] in Hle2; try lia; auto. }
  destruct Hne as (N21 & N31 & N32).
  destruct (active_row_In _ _ _ Hr1) as [Hin1 Hact1].
  destruct (active_row_In _ _ _ Hr2) as [Hin2 Hact2].
  destruct (active_row_In _ _ _ Hr3) as [Hin3 Hact3].
  set (db1 := rotated (envs 0%nat) u1 k1 pk1 db).
  set (db2 := deactivated (envs 1%nat) u2 db1).
  set (db3 := rotated (envs 2%nat) u3 k3 pk3 db2).
  assert (E1 : rotateUserKey (envs 0%nat) u1 false db
               = (Ok (mkRotation k1 (rotated_key (envs 0%nat) u1 k1 pk1)), db1))
    by (apply rotateUserKey_succeeds; try assumption; now apply Hschema).
  assert (Hr2' : active_rows u2 db1 = [k2])
    by (unfold db1; now rewrite active_rows_rotated_other).
  assert (E2 : rotateUserKey (envs 1%nat) u2 false db1 = (Err ProviderError, db2))
    by (now apply (rotateUserKey_provider_down _ _ _ k2 Hr2')).
  assert (Hr3' : active_rows u3 db2 = [k3]).
  { unfold db2, db1.
    rewrite active_rows_deactivated_other, active_rows_rotated_other; assumption. }
  assert (Hf3' : has_key_id (env_uuid (envs 2%nat)) (user_api_keys db2) = false).
  { unfold db2, db1. rewrite has_key_id_deactivated, has_key_id_rotated, Hf3.
    simpl. now apply Z.eqb_neq. }
  assert (E3 : rotateUserKey (envs 2%nat) u3 false db2
               = (Ok (mkRotation k3 (rotated_key (envs 2%nat) u3 k3 pk3)), db3))
    by (apply rotateUserKey_succeeds; try assumption; now apply Hschema).
  exists db3. repeat split.
  - unfold rotateAllUserKeys, bind.
    destruct (getAllUsersWithKeys db) as [listing db0] eqn:Hget.
    assert (db0 = db) by (unfold getAllUsersWithKeys in Hget; congruence).
    simpl in Hlist. subst listing db0.
    cbn [rotate_each]. fold u1 u2 u3. rewrite E1, E2, E3. reflexivity.
  - unfold getUserApiKey; simpl. unfold db3, db2.
    rewrite active_rows_rotated_other, active_rows_deactivated_other by auto.
    unfold db1. rewrite active_rows_rotated_same. reflexivity.
  - unfold getUserApiKey; simpl. unfold db3.
    rewrite active_rows_rotated_same. reflexivity.
  - unfold getUserApiKey; simpl. unfold db3, db2.
    rewrite active_rows_rotated_other by auto.
    unfold deactivated. rewrite active_rows_deactivated_same. reflexivity.
  - unfold getUserApiKey; simpl. now rewrite Hr2.
  - assert (Hk2 : In k2 (user_api_keys db1)).
    { unfold db1.
      rewrite <- (deactivate_row_inert (envs 0%nat) u1 k2).
      - now apply In_rotated.
      - unfold is_active_of. fold u2.
        now replace (u2 =? u1) with false by (symmetry; now apply Z.eqb_neq). }
    apply (In_deactivated (envs 1%nat) u2) in Hk2. fold db2 in Hk2.
    apply (In_rotated (envs 2%nat) u3 k3 pk3) in Hk2. fold db3 in Hk2.
    unfold deactivate_row at 2 in Hk2. rewrite Hact2 in Hk2.
    rewrite deactivate_row_inert in Hk2; [exact Hk2|].
    unfold is_active_of; simpl. apply andb_false_r.
Qed.

Lemma batch_rotation_partial_failure_witness :
  exists db',
    rotateAllUserKeys second_call_fails three_users_db
    = (Ok [ mkOutcome 1 true None;
            mkOutcome 2 false (Some ProviderError);
            mkOutcome 3 true None ], db')
    /\ fst (getUserApiKey 1 db')
       = Ok (Some (rotated_key (second_call_fails 0%nat) 1
                      (sample_key 10 1 3 None 0)
                      (mkProviderKey "or-new-1" "Formul8 User" "sk-or-v1")))
    /\ fst (getUserApiKey 3 db')
       = Ok (Some (rotated_key (second_call_fails 2%nat) 3
                      (sample_key 30 3 1 (Some 1000) 100)
                      (mkProviderKey "or-new-3" "Formul8 User" "sk-or-v1")))
    /\ fst (getUserApiKey 2 db') = Ok None
    /\ fst (getUserApiKey 2 three_users_db)
       = Ok (Some (sample_key 20 2 2 (Some 5000) 1200))
    /\ In (update_updated_at_column (second_call_fails 1%nat)
             (set_status inactive (sample_key 20 2 2 (Some 5000) 1200)))
          (user_api_keys db').
Proof.
  apply (batch_rotation_partial_failure three_users_db second_call_fails
           (sample_key 10 1 3 None 0)
           (sample_key 20 2 2 (Some 5000) 1200)
           (sample_key 30 3 1 (Some 1000) 100)
           (mkProviderKey "or-new-1" "Formul8 User" "sk-or-v1")
           (mkProviderKey "or-new-3" "Formul8 User" "sk-or-v1")).
  - intros u. cbv [active_count active_rows three_users_db sample_key
                   user_api_keys filter is_active_of user_id].
    destruct (Z.eqb_spec 3 u), (Z.eqb_spec 2 u), (Z.eqb_spec 1 u); simpl; lia.
  - intros r [<-|[<-|[<-|[]]]]; split; reflexivity.
  - reflexivity.
  - reflexivity.
  - reflexivity.
  - reflexivity.
  - reflexivity.
  - reflexivity.
  - simpl. lia.
Defined.

(** C3 as stated fails: after the batch in which the provider fails the
    second user's call, that user's lookup no longer returns the key it
    returned before; it returns none. *)
Lemma batch_rotation_failed_member_loses_key :
  ~ (exists manifest db',
       rotateAllUserKeys second_call_fails three_users_db = (Ok manifest, db')
       /\ map ro_success manifest = [true; false; true]
       /\ fst (getUserApiKey 2 db') = fst (getUserApiKey 2 three_users_db)).
Proof.
  intros (manifest & db' & Hrun & _ & Hkept).
  vm_compute in Hrun. injection Hrun as _ <-.
  vm_compute in Hkept. discriminate.
Qed.

(** ** Usage conservation at costs below one cent *)

(** C2, the code at a failing input.  Three reports of 0.004 against a
    fresh key are all inserted, and their costs sum to 0.012, but each
    increment is rounded away when it is stored in [current_usage], which
    stays 0.00: the usage is not the sum of the logged costs.  A single
    report of 0.005 is counted as 0.01. *)
Theorem subcent_costs_are_not_conserved :
  let db := log_all [report 101 4000; report 102 4000; report 103 4000] fresh_db in
  usage_conserved fresh_db
  /\ map cost_usd (api_usage_logs db) = [4000; 4000; 4000]
  /\ logged_cost 10 db = 12000
  /\ map current_usage (user_api_keys db) = [0]
  /\ ~ usage_conserved db
  /\ map current_usage (user_api_keys (log_all [report 101 5000] fresh_db)) = [1].
Proof.
  cbv zeta. repeat split.
  - intros r [<-|[]]. reflexivity.
  - intros Hcons. unfold usage_conserved in Hcons. vm_compute in Hcons.
    specialize (Hcons _ (or_introl eq_refl)). discriminate.
Qed.

(** ** The tier table *)

Lemma tier_table :
  getDefaultMonthlyLimit "free" = JNum 1000
  /\ getDefaultMonthlyLimit "standard" = JNum 5000
  /\ getDefaultMonthlyLimit "micro" = JNum 10000
  /\ getDefaultMonthlyLimit "operator" = JNum 25000
  /\ getDefaultMonthlyLimit "enterprise" = JNum 50000
  /\ getDefaultMonthlyLimit "beta" = JNum 100000.
Proof. repeat split. Qed.

(** A tier that is neither a key of the table nor a property inherited
    from [Object.prototype] gets the free-tier limit. *)
Lemma unknown_tier_gets_free_limit (tier : string) :
  assoc tier limits = None ->
  assoc tier object_prototype = None ->
  getDefaultMonthlyLimit tier = JNum 1000.
Proof.
  intros Hown Hinherited. unfold getDefaultMonthlyLimit, get_property.
  now rewrite Hown, Hinherited.
Qed.

(** The table is an object literal, so a plan named like a property of
    [Object.prototype] finds that property: the default limit is then a
    function, which the request body drops, and the key is stored without
    limit. *)
Example inherited_property_as_tier :
  getDefaultMonthlyLimit "constructor" = JFunction
  /\ exists row pk db',
       create_user (env_plan_is "constructor") 7 None empty_db
       = (Created row pk, db')
       /\ monthly_limit row = None.
Proof. split; [reflexivity|]. do 3 eexists. split; reflexivity. Qed.

(** C4, the code at a failing input.  The table maps admin to null
    (commented "Unlimited"), but the fallback [|| 10.00] replaces the
    null as it replaces a missing entry: the default limit of the admin
    tier is 10.00, and a key created for an admin subscriber without an
    explicit limit is stored with limit 10.00. *)
Theorem admin_tier_gets_free_limit :
  get_property limits "admin" = JNull
  /\ getDefaultMonthlyLimit "admin" = JNum 1000
  /\ getDefaultMonthlyLimit "admin" = getDefaultMonthlyLimit "free"
  /\ exists row pk db',
       create_user (env_plan_is "admin") 7 None empty_db = (Created row pk, db')
       /\ monthly_limit row = Some 1000.
Proof.
  repeat split. do 3 eexists. split; reflexivity.
Qed.

(** ** Limit checks *)

Lemma collect_alerts_origin (a : Alert) (l : list KeyRow) :
  In a (collect_alerts l) ->
  exists r, In r l /\ usage_alert r = Some a.
Proof.
  induction l as [|r rest IH]; simpl; [contradiction|].
  destruct (usage_alert r) as [a'|] eqn:Hr.
  - intros [<-|Hin].
    + exists r. auto.
    + destruct (IH Hin) as (r' & Hin' & Hr'). exists r'. auto.
  - intros Hin. destruct (IH Hin) as (r' & Hin' & Hr'). exists r'. auto.
Qed.

Lemma usage_alert_has_limit (r : KeyRow) (a : Alert) :
  usage_alert r = Some a ->
  monthly_limit r = Some (alert_limit a) /\ alert_userId a = user_id r.
Proof.
  unfold usage_alert. destruct (monthly_limit r) as [limit|]; [|discriminate].
  destruct (PrimFloat.eqb _ _); [discriminate|].
  destruct (PrimFloat.leb usageCritical _); [now intros [= <-]|].
  destruct (PrimFloat.leb usageWarning _); [now intros [= <-]|discriminate].
Qed.

Lemma collect_alerts_complete (a : Alert) (l : list KeyRow) (r : KeyRow) :
  In r l -> usage_alert r = Some a -> In a (collect_alerts l).
Proof.
  intros Hin Halert. induction l as [|x rest IH]; simpl; [contradiction|].
  destruct Hin as [->|Hin].
  - rewrite Halert. now left.
  - destruct (usage_alert x); [right|]; now apply IH.
Qed.

(** The alerts of a pass are the alerts of the active records. *)
Lemma checkUsageLimits_alerts (db : DB) (alerts : list Alert) (a : Alert) :
  fst (checkUsageLimits db) = Ok alerts ->
  (In a alerts <->
   exists r, In r (user_api_keys db) /\ status r = active
             /\ usage_alert r = Some a).
Proof.
  unfold checkUsageLimits, bind, getAllUsersWithKeys, ret; simpl.
  intros [= <-]. split.
  - intros Hin. apply collect_alerts_origin in Hin.
    destruct Hin as (r & Hin & Halert).
    apply order_by_created_at_desc_In, filter_In in Hin.
    destruct Hin as [Hin Hact]. apply status_eqb_eq in Hact.
    exists r. auto.
  - intros (r & Hin & Hact & Halert).
    apply (collect_alerts_complete a _ r); [|assumption].
    apply order_by_created_at_desc_In, filter_In.
    split; [assumption|]. now apply status_eqb_eq.
Qed.

(** In a store with at most one active record per user, the alerts that
    a pass raises for a user are the alert of the record that the lookup
    returns. *)
Lemma checkUsageLimits_of_user (db : DB) (u : uuid) (k : KeyRow)
    (alerts : list Alert) (a : Alert) :
  unique_active db ->
  fst (getUserApiKey u db) = Ok (Some k) ->
  fst (checkUsageLimits db) = Ok alerts ->
  (In a alerts /\ alert_userId a = u <-> usage_alert k = Some a).
Proof.
  intros Hinv Hlookup Hrun.
  pose proof (active_rows_of_lookup u db k Hinv Hlookup) as Hrows.
  assert (Hk : In k (user_api_keys db) /\ is_active_of u k = true).
  { apply filter_In. fold (active_rows u db). rewrite Hrows. now left. }
  destruct Hk as [Hin Hact]. apply is_active_of_spec in Hact.
  destruct Hact as [Huser Hact].
  rewrite (checkUsageLimits_alerts db alerts a Hrun). split.
  - intros [(r & Hr & Hract & Halert) Hu].
    pose proof (usage_alert_has_limit r a Halert) as [_ Hru].
    assert (Hrk : In r (active_rows u db)).
    { apply filter_In. split; [assumption|].
      apply is_active_of_spec. split; [congruence|assumption]. }
    rewrite Hrows in Hrk. destruct Hrk as [<-|[]]. exact Halert.
  - intros Halert. split.
    + exists k. auto.
    + pose proof (usage_alert_has_limit k a Halert) as [_ Hku]. congruence.
Qed.

(** C6. The user's active key [k] has limit 10.00 and the listing of a
    pass of the limit check succeeds.  The pass visits [k].  At usage
    8.50 the pass returns, and reports a warning for the user, at 85% of
    the limit (the quotient computed is at least the warning threshold
    and below the critical one); at usage 9.50 it reports a critical
    alert, at 95% (the quotient is at least the critical threshold); in
    a store with at most one active record per user, this is the only
    alert of the pass for the user.  At usage 10.50 [check_usage_limit]
    answers false.  A record without limit raises no alert: every alert
    of a pass comes from an active record that has a limit, and a user
    whose only active key has no limit is not named by any alert. *)
Theorem limit_scenario (db : DB) (u : uuid) (k : KeyRow) (listing : list KeyRow)
    (Hlookup : fst (getUserApiKey u db) = Ok (Some k))
    (Hlimit : monthly_limit k = Some 1000)
    (Hlist : fst (getAllUsersWithKeys db) = Ok listing) :
  In k listing
  /\ (current_usage k = 850 ->
        usage_alert k = Some (mkAlert warning u 850 1000 (PrimFloat.div 8.5 10))
        /\ PrimFloat.leb usageWarning (PrimFloat.div 8.5 10) = true
        /\ PrimFloat.ltb (PrimFloat.div 8.5 10) usageCritical = true
        /\ exists alerts,
             checkUsageLimits db = (Ok alerts, db)
             /\ In (mkAlert warning u 850 1000 (PrimFloat.div 8.5 10)) alerts
             /\ (unique_active db ->
                 forall a, In a alerts -> alert_userId a = u ->
                           a = mkAlert warning u 850 1000 (PrimFloat.div 8.5 10)))
  /\ (current_usage k = 950 ->
        usage_alert k = Some (mkAlert critical u 950 1000 (PrimFloat.div 9.5 10))
        /\ PrimFloat.leb usageCritical (PrimFloat.div 9.5 10) = true
        /\ exists alerts,
             checkUsageLimits db = (Ok alerts, db)
             /\ In (mkAlert critical u 950 1000 (PrimFloat.div 9.5 10)) alerts
             /\ (unique_active db ->
                 forall a, In a alerts -> alert_userId a = u ->
                           a = mkAlert critical u 950 1000 (PrimFloat.div 9.5 10)))
  /\ (current_usage k = 1050 ->
        fst (checkUserUsageLimit u db) = Ok false)
  /\ (forall r, monthly_limit r = None -> usage_alert r = None)
  /\ (forall db0 a,
        (exists alerts, fst (checkUsageLimits db0) = Ok alerts /\ In a alerts) ->
        exists r, In r (user_api_keys db0)
                  /\ status r = active
                  /\ user_id r = alert_userId a
                  /\ monthly_limit r = Some (alert_limit a))
  /\ (forall db0 u0 k0 alerts,
        unique_active db0 ->
        fst (getUserApiKey u0 db0) = Ok (Some k0) ->
        monthly_limit k0 = None ->
        fst (checkUsageLimits db0) = Ok alerts ->
        forall a, In a alerts -> alert_userId a <> u0).
Proof.
  assert (Hk : In k (user_api_keys db) /\ is_active_of u k = true).
  { apply filter_In. fold (active_rows u db).
    apply latest_In. now apply getUserApiKey_found. }
  destruct Hk as [Hin Hact]. apply is_active_of_spec in Hact.
  destruct Hact as [Huser Hact].
  assert (Hlevel : forall a,
            usage_alert k = Some a ->
            exists alerts,
              checkUsageLimits db = (Ok alerts, db)
              /\ In a alerts
              /\ (unique_active db ->
                  forall a', In a' alerts -> alert_userId a' = u -> a' = a)).
  { intros a Halert. exists (collect_alerts listing).
    unfold getAllUsersWithKeys in Hlist; simpl in Hlist. injection Hlist as <-.
    split; [reflexivity|]. split.
    - apply (checkUsageLimits_alerts db _ a eq_refl). exists k. auto.
    - intros Hinv a' Hin' Hu'.
      assert (Ha' : usage_alert k = Some a')
        by (apply (checkUsageLimits_of_user db u k _ a' Hinv Hlookup eq_refl);
            auto).
      congruence. }
  split; [|split; [|split; [|split; [|split; [|split]]]]].
  - unfold getAllUsersWithKeys in Hlist; simpl in Hlist. injection Hlist as <-.
    apply order_by_created_at_desc_In, filter_In.
    split; [assumption|]. now apply status_eqb_eq.
  - intros Husage.
    assert (Halert : usage_alert k
                     = Some (mkAlert warning u 850 1000 (PrimFloat.div 8.5 10)))
      by (unfold usage_alert; rewrite Hlimit, Husage, Huser; reflexivity).
    split; [exact Halert|]. split; [reflexivity|]. split; [reflexivity|].
    now apply Hlevel.
  - intros Husage.
    assert (Halert : usage_alert k
                     = Some (mkAlert critical u 950 1000 (PrimFloat.div 9.5 10)))
      by (unfold usage_alert; rewrite Hlimit, Husage, Huser; reflexivity).
    split; [exact Halert|]. split; [reflexivity|]. now apply Hlevel.
  - intros Husage. unfold checkUserUsageLimit, check_usage_limit; simpl.
    apply getUserApiKey_found in Hlookup.
    rewrite Hlookup, Hlimit, Husage. reflexivity.
  - intros r Hnone. unfold usage_alert. now rewrite Hnone.
  - intros db0 a (alerts & Hrun & Hin0).
    apply (checkUsageLimits_alerts db0 alerts a Hrun) in Hin0.
    destruct Hin0 as (r & Hr & Hract & Halert).
    apply usage_alert_has_limit in Halert. destruct Halert as [Hl Hu].
    exists r. auto.
  - intros db0 u0 k0 alerts Hinv0 Hlookup0 Hnone Hrun a Hin0 Hu0.
    assert (Ha : usage_alert k0 = Some a)
      by (apply (checkUsageLimits_of_user db0 u0 k0 alerts a Hinv0 Hlookup0 Hrun);
          auto).
    unfold usage_alert in Ha. rewrite Hnone in Ha. discriminate.
Qed.

Lemma limit_scenario_witness :
  exists alerts,
    checkUsageLimits (mkDB [sample_key 10 1 3 (Some 1000) 850] [])
    = (Ok alerts, mkDB [sample_key 10 1 3 (Some 1000) 850] [])
    /\ In (mkAlert warning 1 850 1000 (PrimFloat.div 8.5 10)) alerts.
Proof.
  destruct (limit_scenario (mkDB [sample_key 10 1 3 (Some 1000) 850] []) 1
              (sample_key 10 1 3 (Some 1000) 850)
              [sample_key 10 1 3 (Some 1000) 850] eq_refl eq_refl eq_refl)
    as (_ & Hwarning & _).
  destruct (Hwarning eq_refl) as (_ & _ & _ & alerts & Hrun & Hin & _).
  exists alerts. split; [exact Hrun|exact Hin].
Defined.

(** The scenario from the first report on: usage 8.50, 9.50 and 10.50
    after reports of 8.50, 1.00 and 1.00. *)
Lemma reports_reach_each_alert_level :
  let db1 := log_all [report 101 8500000] fresh_db in
  let db2 := log_all [report 102 1000000] db1 in
  let db3 := log_all [report 103 1000000] db2 in
  fst (checkUsageLimits db1)
  = Ok [mkAlert warning 1 850 1000 (PrimFloat.div 8.5 10)]
  /\ fst (checkUsageLimits db2)
     = Ok [mkAlert critical 1 950 1000 (PrimFloat.div 9.5 10)]
  /\ fst (checkUserUsageLimit 1 db2) = Ok true
  /\ fst (checkUserUsageLimit 1 db3) = Ok false.
Proof. repeat split. Qed.

(** The percentage is a quotient of doubles: usage 0.04 of a limit 0.05
    is 80% of it, but the quotient computed is below 0.8 and no alert is
    raised. *)
Example rounded_percentage_below_threshold :
  usage_alert (sample_key 10 1 3 (Some 5) 4) = None.
Proof. reflexivity. Qed.

(** C10. For a user whose active key has a limit, the limit check answers
    within-limit exactly when the usage is strictly below the limit; at
    usage equal to the limit it answers exceeded. *)
Theorem limit_check_is_strict (db : DB) (u : uuid) (k : KeyRow) (limit : cents)
    (Hlookup : fst (getUserApiKey u db) = Ok (Some k))
    (Hlimit : monthly_limit k = Some limit) :
  (fst (checkUserUsageLimit u db) = Ok true <-> current_usage k < limit)
  /\ (current_usage k = limit -> fst (checkUserUsageLimit u db) = Ok false)
  /\ check_usage_limit db u = (current_usage k <? limit).
Proof.
  apply getUserApiKey_found in Hlookup. rename Hlookup into Hlatest.
  assert (Hcheck : check_usage_limit db u = (current_usage k <? limit))
    by (unfold check_usage_limit; now rewrite Hlatest, Hlimit).
  unfold checkUserUsageLimit; simpl. rewrite Hcheck. repeat split.
  - intros [= H]. now apply Z.ltb_lt.
  - intros H. apply Z.ltb_lt in H. now rewrite H.
  - intros ->. now rewrite Z.ltb_irrefl.
Qed.

Lemma limit_check_is_strict_witness :
  fst (checkUserUsageLimit 1 (mkDB [sample_key 10 1 3 (Some 1000) 1000] []))
  = Ok false.
Proof.
  apply (proj1 (proj2 (limit_check_is_strict
                         (mkDB [sample_key 10 1 3 (Some 1000) 1000] []) 1
                         (sample_key 10 1 3 (Some 1000) 1000) 1000
                         eq_refl eq_refl))).
  reflexivity.
Defined.

(** ** The monthly reset *)

Lemma date_ltb_irrefl (d : Date) : date_ltb d d = false.
Proof.
  unfold date_ltb. rewrite !Z.ltb_irrefl, !Z.eqb_refl. reflexivity.
Qed.

Lemma reset_leaves_nothing_stale (e : Env) (cycle : Date) (r : KeyRow) :
  is_stale cycle (if is_stale cycle r then reset_row e cycle r else r) = false.
Proof.
  destruct (is_stale cycle r) eqn:Hstale; [|exact Hstale].
  unfold is_stale, reset_row; simpl. apply date_ltb_irrefl.
Qed.

Lemma map_id_when_unselected {A} (p : A -> bool) (f : A -> A) (l : list A) :
  (forall x, In x l -> p x = false) ->
  map (fun x => if p x then f x else x) l = l.
Proof.
  induction l as [|x rest IH]; intros Hp; simpl; [reflexivity|].
  rewrite (Hp x) by now left. f_equal. apply IH. intros y Hy. apply Hp. now right.
Qed.

Lemma filter_none_when_unselected {A} (p : A -> bool) (l : list A) :
  (forall x, In x l -> p x = false) -> filter p l = [].
Proof.
  induction l as [|x rest IH]; intros Hp; simpl; [reflexivity|].
  rewrite (Hp x) by now left. apply IH. intros y Hy. apply Hp. now right.
Qed.

(** C7. The reset touches exactly the records whose reset date is before
    the start of the current cycle: it zeroes their usage, moves their
    reset date to the cycle start, and returns their number; every other
    record is left as it is.  A second reset in the same cycle returns 0
    and leaves the store as the first one left it. *)
Theorem reset_is_idempotent_within_a_cycle (db : DB) (e1 e2 : Env)
    (Hsame : date_trunc_month (ts_date (env_now e1))
             = date_trunc_month (ts_date (env_now e2))) :
  let cycle := date_trunc_month (ts_date (env_now e1)) in
  let stale r := date_ltb (usage_reset_date r) cycle in
  let (count, db1) := reset_monthly_usage e1 db in
  count = Z.of_nat (List.length (filter stale (user_api_keys db)))
  /\ user_api_keys db1
     = map (fun r => if stale r
                     then set_updated_at (env_now e1)
                            (set_reset_date cycle (set_usage 0 r))
                     else r)
           (user_api_keys db)
  /\ api_usage_logs db1 = api_usage_logs db
  /\ reset_monthly_usage e2 db1 = (0, db1)
  /\ resetAllMonthlyUsage e2 db1 = (Ok 0, db1).
Proof.
  cbv zeta. unfold reset_monthly_usage at 1.
  split; [reflexivity|]. split; [reflexivity|]. split; [reflexivity|].
  set (cycle := date_trunc_month (ts_date (env_now e1))) in *.
  set (db1 := mkDB _ _).
  assert (Hfresh : forall r, In r (user_api_keys db1) -> is_stale cycle r = false).
  { intros r Hin. unfold db1 in Hin; simpl in Hin.
    apply in_map_iff in Hin. destruct Hin as (r0 & <- & _).
    apply reset_leaves_nothing_stale. }
  assert (Hagain : reset_monthly_usage e2 db1 = (0, db1)).
  { unfold reset_monthly_usage. rewrite <- Hsame. fold cycle.
    rewrite (filter_none_when_unselected _ _ Hfresh).
    rewrite (map_id_when_unselected _ _ _ Hfresh). reflexivity. }
  split; [exact Hagain|].
  unfold resetAllMonthlyUsage. now rewrite Hagain.
Qed.

Lemma reset_is_idempotent_within_a_cycle_witness :
  let (count, db1) := reset_monthly_usage (env_down 2 0) (mkDB
        [ mkKeyRow 10 1 "or-key" "Formul8 User" None (Some 5000) 1200
                   (mkDate 2025 2 1) active (sample_time 1 0) (sample_time 1 0) None;
          sample_key 20 2 2 (Some 5000) 300 ] []) in
  count = 1
  /\ map current_usage (user_api_keys db1) = [0; 300]
  /\ reset_monthly_usage (env_ok 28 0 "or-x") db1 = (0, db1).
Proof.
  pose proof (reset_is_idempotent_within_a_cycle (mkDB
        [ mkKeyRow 10 1 "or-key" "Formul8 User" None (Some 5000) 1200
                   (mkDate 2025 2 1) active (sample_time 1 0) (sample_time 1 0) None;
          sample_key 20 2 2 (Some 5000) 300 ] [])
        (env_down 2 0) (env_ok 28 0 "or-x") eq_refl) as H.
  cbv zeta in H.
  destruct (reset_monthly_usage (env_down 2 0) _) as [count db1] eqn:Hrun.
  destruct H as (Hcount & Hkeys & _ & Hagain & _).
  split; [exact Hcount|]. split; [|exact Hagain].
  rewrite Hkeys. reflexivity.
Defined.

(** ** Deactivation without an active record *)

(** C8 as stated fails: deactivating the key of a user whose only record
    is already inactive does not succeed. *)
Lemma deactivate_inactive_is_an_error :
  ~ (is_ok (fst (deactivateUserApiKey (env_down 20 0) 1 inactive_db)) = true
     /\ snd (deactivateUserApiKey (env_down 20 0) 1 inactive_db) = inactive_db).
Proof. intros [Hok _]. vm_compute in Hok. discriminate. Qed.

(** C8, as amended.  For a user without active record, deactivation
    changes no stored record and throws the store's no-row error
    (PGRST116). *)
Theorem deactivate_without_active_key (db : DB) (e : Env) (u : uuid)
    (Hnone : active_count u db = 0%nat) :
  deactivateUserApiKey e u db = (Err PGRST116, db).
Proof.
  unfold deactivateUserApiKey. unfold active_count in Hnone.
  destruct (active_rows u db) as [|r rest]; [reflexivity|discriminate].
Qed.

Lemma deactivate_without_active_key_witness :
  deactivateUserApiKey (env_down 20 0) 1 inactive_db = (Err PGRST116, inactive_db).
Proof.
  apply (deactivate_without_active_key inactive_db (env_down 20 0) 1).
  reflexivity.
Defined.

(** ** Lookups for a user without record *)

(** C9 as stated fails: the limit check answers the same for a user
    without any record as for a user whose active key has no limit. *)
Lemma limit_check_conflates_missing_and_unlimited :
  ~ (fst (checkUserUsageLimit 1 empty_db) <> fst (checkUserUsageLimit 1 unlimited_db)).
Proof. intros Hdiff. apply Hdiff. reflexivity. Qed.

(** C9, as amended.  For a user without active record the key lookup
    returns null, which the key route answers with 404 and which no found
    record equals; the limit check returns true, as it does for a user
    whose active key has no limit, and the limit route answers 200 with
    withinLimit true and no limit, usage or reset date. *)
Theorem missing_user_lookups (db : DB) (u : uuid)
    (Hnone : active_count u db = 0%nat) :
  fst (getUserApiKey u db) = Ok None
  /\ (forall e, get_user_key e u db = KeyNotFound)
  /\ fst (checkUserUsageLimit u db) = Ok true
  /\ usage_limit u db = LimitChecked (mkLimitData true None None None)
  /\ (forall db0 u0 k,
        fst (getUserApiKey u0 db0) = Ok (Some k) ->
        monthly_limit k = None ->
        fst (checkUserUsageLimit u0 db0) = fst (checkUserUsageLimit u db)
        /\ usage_limit u0 db0
           = LimitChecked (mkLimitData true (Some None) (Some (current_usage k))
                             (Some (usage_reset_date k)))).
Proof.
  assert (Hrows : active_rows u db = []).
  { unfold active_count in Hnone.
    destruct (active_rows u db); [reflexivity|discriminate]. }
  assert (Hcheck : check_usage_limit db u = true)
    by (unfold check_usage_limit; now rewrite Hrows).
  split; [|split; [|split; [|split]]].
  - unfold getUserApiKey; simpl. now rewrite Hrows.
  - intros e. unfold get_user_key, getUserApiKey. now rewrite Hrows.
  - unfold checkUserUsageLimit; simpl. now rewrite Hcheck.
  - unfold usage_limit, bind, checkUserUsageLimit, getUserApiKey, ret.
    now rewrite Hcheck, Hrows.
  - intros db0 u0 k Hfound Hunlimited.
    apply getUserApiKey_found in Hfound. rename Hfound into Hlatest.
    split.
    + unfold checkUserUsageLimit; simpl. rewrite Hcheck.
      unfold check_usage_limit. now rewrite Hlatest, Hunlimited.
    + unfold usage_limit, bind, checkUserUsageLimit, getUserApiKey, ret,
        check_usage_limit.
      rewrite Hlatest, Hunlimited. simpl. now rewrite Hunlimited.
Qed.

Lemma missing_user_lookups_witness :
  fst (getUserApiKey 1 empty_db) = Ok None
  /\ fst (checkUserUsageLimit 1 empty_db) = Ok true
  /\ fst (checkUserUsageLimit 1 unlimited_db) = fst (checkUserUsageLimit 1 empty_db).
Proof.
  pose proof (missing_user_lookups empty_db 1 eq_refl) as (Hkey & _ & Hcheck & _ & Hsame).
  split; [exact Hkey|]. split; [exact Hcheck|].
  exact (proj1 (Hsame unlimited_db 1 (sample_key 10 1 3 None 250) eq_refl eq_refl)).
Defined.

(* ===================================================================== *)
(** * Further properties of the store *)
(* ===================================================================== *)

(** ** Every operation is a sequence of guarded writes *)

Lemma writes_one (db db' : DB) : write db db' -> writes db db'.
Proof. intros H. eapply writes_more; [apply writes_none|exact H]. Qed.

Lemma writes_trans (db1 db2 db3 : DB) :
  writes db1 db2 -> writes db2 db3 -> writes db1 db3.
Proof.
  intros H12 H23. induction H23 as [|dbm db3 _ IH Hw]; [exact H12|].
  eapply writes_more; eassumption.
Qed.

Lemma createUserApiKey_writes (e : Env) (u : uuid) (k n : string) (l : JsLimit)
    (db : DB) :
  active_rows u db = [] -> writes db (snd (createUserApiKey e u k n l db)).
Proof.
  intros Hnone. unfold createUserApiKey.
  destruct (column_of_js l) as [lim|]; [|apply writes_none].
  destruct (key_row_fits _) eqn:Hfits; [|apply writes_none].
  destruct (key_row_checks _) eqn:Hchecks; [|apply writes_none].
  simpl id. destruct (has_key_id _ _) eqn:Hid; [apply writes_none|].
  simpl. apply writes_one. now apply write_key.
Qed.

Lemma deactivateUserApiKey_writes (e : Env) (u : uuid) (db : DB) :
  writes db (snd (deactivateUserApiKey e u db)).
Proof.
  unfold deactivateUserApiKey.
  destruct (active_rows u db) as [|r [|r2 rest]]; try apply writes_none.
  apply writes_one. apply write_deactivation.
Qed.

Lemma create_user_writes (e : Env) (u : uuid) (l : option cents) (db : DB) :
  writes db (snd (create_user e u l db)).
Proof.
  unfold create_user.
  destruct (match l with Some m => m <=? 0 | None => false end);
    [apply writes_none|].
  unfold getUserApiKey.
  destruct (latest (active_rows u db)) as [existing|] eqn:Hlatest;
    [apply writes_none|].
  apply latest_nil_inv in Hlatest.
  unfold bind, createUserKey.
  destruct (env_provider e) as [pk|]; [|apply writes_none].
  set (finalLimit := js_or _ _).
  pose proof (createUserApiKey_writes e u (pk_id pk) (pk_name pk) finalLimit
                db Hlatest) as Hw.
  destruct (createUserApiKey _ _ _ _ _ _) as [[row|err] db2]; exact Hw.
Qed.

Lemma rotateUserKey_writes (e : Env) (u : uuid) (d : bool) (db : DB) :
  writes db (snd (rotateUserKey e u d db)).
Proof.
  rewrite rotateUserKey_cases.
  destruct (latest (active_rows u db)) as [cur|]; [|apply writes_none].
  destruct (active_rows u db) as [|r [|r2 rest]]; try apply writes_none.
  cbv zeta. fold (deactivated e u db).
  assert (Hd : writes db (deactivated e u db))
    by (apply writes_one, write_deactivation).
  destruct (env_provider e) as [pk|]; [|exact Hd].
  pose proof (createUserApiKey_writes e u (pk_id pk) (pk_name pk)
                (js_of_column (monthly_limit cur)) (deactivated e u db)
                (active_rows_deactivated_same e u db)) as Hw.
  destruct (createUserApiKey _ _ _ _ _ _) as [[row|err] db2];
    exact (writes_trans _ _ _ Hd Hw).
Qed.

Lemma logApiUsage_writes (e : Env) (u k : uuid) (d : UsageData) (db : DB) :
  writes db (snd (logApiUsage e u k d db)).
Proof.
  unfold logApiUsage. destruct (ud_model d) as [m|]; [|apply writes_none].
  set (row := mkLogRow _ _ _ _ _ _ _ _ _ _ _ _).
  destruct (log_row_fits row) eqn:Hfits; [|apply writes_none].
  destruct (log_row_checks row) eqn:Hchecks; [|apply writes_none].
  simpl negb. cbv iota.
  destruct (has_log_id _ _) eqn:Hlog; [apply writes_none|].
  destruct (has_key_id _ _) eqn:Hfk; [|apply writes_none].
  simpl negb. cbv iota.
  destruct (forallb key_row_fits _) eqn:Hkfits; [|apply writes_none].
  destruct (forallb key_row_checks _) eqn:Hkchecks; [|apply writes_none].
  simpl. apply writes_one. apply write_usage; try assumption.
  intros r Hin Hid.
  assert (Hupd : In (add_usage e row r)
                   (map (add_usage e row)
                        (filter (fun r0 => id r0 =? k) (user_api_keys db)))).
  { apply in_map, filter_In. split; [assumption|]. apply Z.eqb_eq. exact Hid. }
  rewrite forallb_forall in Hkfits, Hkchecks. auto.
Qed.

Lemma rotate_each_writes (envs : nat -> Env) (keys : list KeyRow) :
  forall i db, writes db (snd (rotate_each envs i keys db)).
Proof.
  induction keys as [|k rest IH]; intros i db; simpl; [apply writes_none|].
  pose proof (rotateUserKey_writes (envs i) (user_id k) false db) as H1.
  destruct (rotateUserKey (envs i) (user_id k) false db) as [r db1].
  pose proof (IH (S i) db1) as H2.
  destruct (rotate_each envs (S i) rest db1) as [results db2]. simpl in *.
  exact (writes_trans _ _ _ H1 H2).
Qed.

Lemma store_step_writes (db : DB) (op : StoreOp) : writes db (store_step db op).
Proof.
  destruct op as [[e u l|e u d|e u]|c|e|envs]; simpl.
  - apply create_user_writes.
  - apply rotateUserKey_writes.
  - apply deactivateUserApiKey_writes.
  - apply logApiUsage_writes.
  - apply writes_one. exact (write_reset db e).
  - unfold rotateAllUserKeys, bind, getAllUsersWithKeys.
    pose proof (rotate_each_writes envs
                  (order_by_created_at_desc
                     (filter (fun r => status_eqb (status r) active)
                             (user_api_keys db))) 0 db) as Hw.
    destruct (rotate_each _ _ _ _) as [results db']. exact Hw.
Qed.

Lemma store_run_writes (ops : list StoreOp) (db : DB) :
  writes db (store_run ops db).
Proof.
  revert db. induction ops as [|op ops IH]; intros db; simpl.
  - apply writes_none.
  - exact (writes_trans _ _ _ (store_step_writes db op) (IH _)).
Qed.

(** An invariant of every write is an invariant of every run. *)
Lemma store_run_invariant (I : DB -> Prop) :
  (forall db db', write db db' -> I db -> I db') ->
  forall ops db, I db -> I (store_run ops db).
Proof.
  intros Hstep ops db Hdb.
  induction (store_run_writes ops db) as [|db1 db2 _ IH Hw]; [exact Hdb|].
  exact (Hstep _ _ Hw IH).
Qed.

(** ** Invariants of every write *)

Lemma has_key_id_In (i : uuid) (l : list KeyRow) :
  has_key_id i l = true <-> In i (map id l).
Proof.
  unfold has_key_id. rewrite existsb_exists, in_map_iff.
  split; intros (r & H1 & H2).
  - exists r. apply Z.eqb_eq in H2. auto.
  - exists r. split; [assumption|]. now apply Z.eqb_eq.
Qed.

Lemma has_log_id_In (i : uuid) (l : list LogRow) :
  has_log_id i l = true <-> In i (map log_id l).
Proof.
  unfold has_log_id. rewrite existsb_exists, in_map_iff.
  split; intros (r & H1 & H2).
  - exists r. apply Z.eqb_eq in H2. auto.
  - exists r. split; [assumption|]. now apply Z.eqb_eq.
Qed.

Lemma map_id_unchanged (f : KeyRow -> KeyRow) (l : list KeyRow) :
  (forall r, id (f r) = id r) -> map id (map f l) = map id l.
Proof. intros Hf. rewrite map_map. apply map_ext. exact Hf. Qed.

Lemma deactivate_row_id (e : Env) (u : uuid) (r : KeyRow) :
  id (deactivate_row e u r) = id r.
Proof. unfold deactivate_row. now destruct (is_active_of u r). Qed.

Lemma usage_update_id (e : Env) (row : LogRow) (r : KeyRow) :
  id (if id r =? api_key_id row then add_usage e row r else r) = id r.
Proof. now destruct (id r =? api_key_id row). Qed.

Lemma reset_update_id (e : Env) (cycle : Date) (r : KeyRow) :
  id (if is_stale cycle r then reset_row e cycle r else r) = id r.
Proof. now destruct (is_stale cycle r). Qed.

(** The ids of the key table after a write: those before, and the new
    one after an insert. *)
Lemma write_key_ids (db db' : DB) :
  write db db' ->
  map id (user_api_keys db') = map id (user_api_keys db)
  \/ exists i, ~ In i (map id (user_api_keys db))
               /\ map id (user_api_keys db') = map id (user_api_keys db) ++ [i].
Proof.
  intros [e u k n lim _ _ _ Hfresh|e u|e row _ _ _ _ _|e]; simpl.
  - right. exists (env_uuid e). split.
    + rewrite <- has_key_id_In. now rewrite Hfresh.
    + now rewrite map_app.
  - left. apply map_id_unchanged. apply deactivate_row_id.
  - left. apply map_id_unchanged. apply usage_update_id.
  - left. apply map_id_unchanged. apply reset_update_id.
Qed.

Lemma write_unique_active (db db' : DB) :
  write db db' -> unique_active db -> unique_active db'.
Proof.
  intros [e u k n lim Hnone _ _ _|e u|e row _ _ _ _ _|e] Hinv.
  - now apply unique_active_after_insert.
  - now apply unique_active_after_deactivate.
  - intros v. unfold active_count, active_rows, update_user_usage; simpl.
    rewrite filter_length_map_ext; [apply Hinv|].
    intros r. now destruct (id r =? api_key_id row).
  - intros v. unfold active_count, active_rows; simpl.
    rewrite filter_length_map_ext; [apply Hinv|].
    intros r. now destruct (is_stale _ r).
Qed.

Lemma write_schema_ok (db db' : DB) :
  write db db' -> schema_ok db -> schema_ok db'.
Proof.
  intros [e u k n lim _ Hchecks Hfits _|e u|e row _ _ _ _ Hupd|e] Hok r Hin;
    simpl in Hin.
  - apply in_app_or in Hin. destruct Hin as [Hin|[<-|[]]]; auto.
  - apply in_map_iff in Hin. destruct Hin as (r0 & <- & Hin).
    specialize (Hok r0 Hin). unfold deactivate_row.
    now destruct (is_active_of u r0).
  - unfold update_user_usage in Hin.
    apply in_map_iff in Hin. destruct Hin as (r0 & <- & Hin).
    destruct (Z.eqb_spec (id r0) (api_key_id row)); auto.
  - apply in_map_iff in Hin. destruct Hin as (r0 & <- & Hin).
    specialize (Hok r0 Hin). destruct (is_stale _ r0); [|assumption].
    destruct Hok as [Hc Hf]. unfold key_row_checks, key_row_fits in *. simpl.
    apply andb_true_iff in Hc, Hf. destruct Hc as [-> _], Hf as [-> _].
    split; reflexivity.
Qed.

Lemma write_log_schema_ok (db db' : DB) :
  write db db' -> log_schema_ok db -> log_schema_ok db'.
Proof.
  intros [e u k n lim _ _ _ _|e u|e row Hchecks Hfits _ _ _|e] Hok l Hin;
    simpl in Hin; auto.
  apply in_app_or in Hin. destruct Hin as [Hin|[<-|[]]]; auto.
Qed.

Lemma NoDup_snoc {A} (l : list A) (x : A) :
  NoDup l -> ~ In x l -> NoDup (l ++ [x]).
Proof.
  intros Hl Hx. induction Hl as [|y l Hy Hl IH]; simpl.
  - constructor; [tauto|constructor].
  - constructor.
    + rewrite in_app_iff. simpl. intros [H|[H|[]]]; [tauto|].
      subst. apply Hx. now left.
    + apply IH. intros H. apply Hx. now right.
Qed.

Lemma write_primary_keys_ok (db db' : DB) :
  write db db' -> primary_keys_ok db -> primary_keys_ok db'.
Proof.
  intros Hw [Hkeys Hlogs]. split.
  - destruct (write_key_ids db db' Hw) as [->|(i & Hfresh & ->)];
      [assumption|now apply NoDup_snoc].
  - destruct Hw as [e u k n lim _ _ _ _|e u|e row _ _ Hfresh _ _|e];
      simpl; try assumption.
    rewrite map_app. apply NoDup_snoc; [assumption|].
    rewrite <- has_log_id_In. now rewrite Hfresh.
Qed.

Lemma write_keeps_key_ids (db db' : DB) (i : uuid) :
  write db db' ->
  has_key_id i (user_api_keys db) = true ->
  has_key_id i (user_api_keys db') = true.
Proof.
  intros Hw. rewrite !has_key_id_In.
  destruct (write_key_ids db db' Hw) as [->|(j & _ & ->)];
    [tauto|rewrite in_app_iff; tauto].
Qed.

Lemma write_foreign_keys_ok (db db' : DB) :
  write db db' -> foreign_keys_ok db -> foreign_keys_ok db'.
Proof.
  intros Hw Hok l Hin. apply (write_keeps_key_ids db db' _ Hw).
  destruct Hw as [e u k n lim _ _ _ _|e u|e row _ _ _ Hfk _|e];
    simpl in Hin; auto.
  apply in_app_or in Hin. destruct Hin as [Hin|[<-|[]]]; auto.
Qed.

(** X1. Starting from a store with at most one active record per user,
    every sequence of lifecycle operations, usage reports, resets and
    batch rotations leaves at most one active record per user. *)
Theorem store_keeps_one_active_key (db : DB) (Hinv : unique_active db) :
  forall ops u, (active_count u (store_run ops db) <= 1)%nat.
Proof.
  intros ops. apply (store_run_invariant unique_active write_unique_active).
  exact Hinv.
Qed.

Lemma store_keeps_one_active_key_witness :
  (active_count 1%Z (store_run sample_store_ops sample_db) <= 1)%nat.
Proof.
  apply (store_keeps_one_active_key sample_db).
  intros u. cbv [active_count active_rows sample_db sample_key
                 user_api_keys filter is_active_of user_id].
  destruct (1 =? u); simpl; lia.
Defined.

(** X2. The table constraints ([positive_limit], [positive_usage],
    [positive_tokens], [positive_cost]) and the precision of the decimal
    and integer columns hold in every store reached from a store in which
    they hold, whatever operations run. *)
Theorem store_keeps_check_constraints (db : DB)
    (Hkeys : schema_ok db) (Hlogs : log_schema_ok db) :
  forall ops, schema_ok (store_run ops db) /\ log_schema_ok (store_run ops db).
Proof.
  intros ops.
  apply (store_run_invariant (fun d => schema_ok d /\ log_schema_ok d)); [|auto].
  intros d d' Hw [H1 H2]. split.
  - exact (write_schema_ok d d' Hw H1).
  - exact (write_log_schema_ok d d' Hw H2).
Qed.

Lemma store_keeps_check_constraints_witness :
  schema_ok (store_run sample_store_ops sample_db)
  /\ log_schema_ok (store_run sample_store_ops sample_db).
Proof.
  apply (store_keeps_check_constraints sample_db).
  - intros r [<-|[]]. split; reflexivity.
  - intros l [].
Defined.

(** X3. No operation gives two rows of a table the same id: the primary
    keys stay unique in both tables. *)
Theorem store_keeps_primary_keys (db : DB) (Hpk : primary_keys_ok db) :
  forall ops, primary_keys_ok (store_run ops db).
Proof.
  intros ops. now apply (store_run_invariant primary_keys_ok write_primary_keys_ok).
Qed.

Lemma store_keeps_primary_keys_witness :
  primary_keys_ok (store_run sample_store_ops sample_db).
Proof.
  apply (store_keeps_primary_keys sample_db).
  split; simpl; repeat constructor; simpl; tauto.
Defined.

(** X4. Every usage row keeps referring to a stored key: no operation
    removes a key or changes its id, and a report against an unknown key
    id is not inserted. *)
Theorem store_keeps_foreign_keys (db : DB) (Hfk : foreign_keys_ok db) :
  forall ops, foreign_keys_ok (store_run ops db).
Proof.
  intros ops. now apply (store_run_invariant foreign_keys_ok write_foreign_keys_ok).
Qed.

Lemma store_keeps_foreign_keys_witness :
  foreign_keys_ok (store_run sample_store_ops sample_db).
Proof.
  apply (store_keeps_foreign_keys sample_db). intros l [].
Defined.

(** ** What a usage report does to the keys *)

Lemma round_micros_to_cents_error (m : micros) :
  Z.abs (cents_to_micros (round_micros_to_cents m) - m) <= 5000.
Proof.
  unfold round_micros_to_cents, cents_to_micros.
  destruct (Z.leb_spec 0 m) as [Hpos|Hneg].
  - pose proof (Z.div_mod (m + 5000) 10000 ltac:(lia)) as Hdiv.
    pose proof (Z.mod_pos_bound (m + 5000) 10000 ltac:(lia)) as Hmod.
    lia.
  - pose proof (Z.div_mod (- m + 5000) 10000 ltac:(lia)) as Hdiv.
    pose proof (Z.mod_pos_bound (- m + 5000) 10000 ltac:(lia)) as Hmod.
    lia.
Qed.

Lemma add_usage_charged (e : Env) (row : LogRow) (r : KeyRow) :
  0 <= cost_usd row -> charged (cost_usd row) r (add_usage e row r).
Proof.
  intros Hcost. unfold charged, add_usage; simpl.
  pose proof (round_micros_to_cents_error
                (cents_to_micros (current_usage r) + cost_usd row)) as Herr.
  repeat split; try assumption.
  unfold cents_to_micros in *. lia.
Qed.

(** X5. A usage report that is accepted appends its row and charges the
    keys with the referenced id: they keep every column but the usage and
    the timestamps [updated_at] and [last_used_at], and their usage never
    goes down and ends at most half a cent away from the old usage plus
    the cost; every other key row is left as it is.  A report that is
    refused changes nothing. *)
Theorem usage_report_effect (e : Env) (u k : uuid) (d : UsageData)
    (db db' : DB) (res : Result LogRow)
    (Hrun : logApiUsage e u k d db = (res, db')) :
  match res with
  | Err _ => db' = db
  | Ok row =>
      api_usage_logs db' = api_usage_logs db ++ [row]
      /\ api_key_id row = k
      /\ cost_usd row = or_zero (ud_costUsd d)
      /\ Forall2 (fun r r' => if id r =? k
                              then charged (cost_usd row) r r'
                              else r' = r)
                 (user_api_keys db) (user_api_keys db')
  end.
Proof.
  destruct res as [row|err].
  - apply logApiUsage_ok in Hrun.
    destruct Hrun as (Hkey & Hcost & Hpos & _ & ->). simpl.
    repeat split; try assumption.
    unfold update_user_usage. rewrite Hkey.
    induction (user_api_keys db) as [|r rest IH]; simpl; constructor;
      [|exact IH].
    destruct (id r =? k); [now apply add_usage_charged|reflexivity].
  - now apply logApiUsage_err in Hrun.
Qed.

Lemma usage_report_effect_witness :
  exists row db',
    logApiUsage (lc_env (report 101 4000)) 1 10 (usage_of 4000) fresh_db
    = (Ok row, db')
    /\ api_usage_logs db' = [row]
    /\ Forall2 (fun r r' => if id r =? 10
                            then charged (cost_usd row) r r'
                            else r' = r)
               (user_api_keys fresh_db) (user_api_keys db').
Proof.
  do 2 eexists. split; [reflexivity|].
  pose proof (usage_report_effect (lc_env (report 101 4000)) 1 10
                (usage_of 4000) fresh_db _ _ eq_refl) as H.
  cbv beta iota in H. destruct H as (Hlogs & _ & _ & Hkeys).
  split; [exact Hlogs|exact Hkeys].
Defined.

(** ** Resets and reports in one cycle *)

Lemma log_step_keeps_reset_dates (db : DB) (c : LogCall) (cycle : Date) :
  (forall r, In r (user_api_keys db) -> is_stale cycle r = false) ->
  forall r, In r (user_api_keys (log_step db c)) -> is_stale cycle r = false.
Proof.
  intros Hfresh r Hin. unfold log_step in Hin.
  destruct (logApiUsage _ _ _ _ db) as [[row|err] db'] eqn:Hlog; simpl in Hin.
  - apply logApiUsage_ok in Hlog. destruct Hlog as (_ & _ & _ & _ & ->).
    simpl in Hin. unfold update_user_usage in Hin.
    apply in_map_iff in Hin. destruct Hin as (r0 & <- & Hin).
    specialize (Hfresh r0 Hin).
    now destruct (id r0 =? api_key_id row).
  - apply logApiUsage_err in Hlog. subst. auto.
Qed.

Lemma log_all_keeps_reset_dates (calls : list LogCall) (cycle : Date) :
  forall db,
    (forall r, In r (user_api_keys db) -> is_stale cycle r = false) ->
    forall r, In r (user_api_keys (log_all calls db)) -> is_stale cycle r = false.
Proof.
  induction calls as [|c calls IH]; intros db Hfresh; simpl; [exact Hfresh|].
  apply IH. now apply log_step_keeps_reset_dates.
Qed.

(** X6. Usage reported after a reset survives a second reset in the same
    month: whatever reports are accepted in between, the second reset
    returns 0 and leaves the store, with the usage accrued since the
    first reset, as it is. *)
Theorem reset_spares_usage_of_the_cycle (db : DB) (e1 e2 : Env)
    (calls : list LogCall)
    (Hsame : date_trunc_month (ts_date (env_now e1))
             = date_trunc_month (ts_date (env_now e2))) :
  let db1 := log_all calls (snd (reset_monthly_usage e1 db)) in
  reset_monthly_usage e2 db1 = (0, db1).
Proof.
  cbv zeta. set (cycle := date_trunc_month (ts_date (env_now e1))) in *.
  set (db1 := log_all calls _).
  assert (Hfresh : forall r, In r (user_api_keys db1) -> is_stale cycle r = false).
  { apply log_all_keeps_reset_dates. intros r Hin. simpl in Hin.
    apply in_map_iff in Hin. destruct Hin as (r0 & <- & _).
    apply reset_leaves_nothing_stale. }
  unfold reset_monthly_usage. rewrite <- Hsame. fold cycle.
  rewrite (filter_none_when_unselected _ _ Hfresh).
  rewrite (map_id_when_unselected _ _ _ Hfresh). now destruct db1.
Qed.

Lemma reset_spares_usage_of_the_cycle_witness :
  let db1 := log_all [report 101 8500000; report 102 1000000]
                     (snd (reset_monthly_usage (env_april 1) sample_db)) in
  map current_usage (user_api_keys db1) = [950]
  /\ reset_monthly_usage (env_april 28) db1 = (0, db1).
Proof.
  split; [reflexivity|].
  apply (reset_spares_usage_of_the_cycle sample_db (env_april 1) (env_april 28)
           [report 101 8500000; report 102 1000000]).
  reflexivity.
Defined.

(** ** The listing of active keys *)

Lemma insert_desc_Permutation (r : KeyRow) (l : list KeyRow) :
  Permutation (insert_desc r l) (r :: l).
Proof.
  induction l as [|x xs IH]; simpl; [reflexivity|].
  destruct (ts_leb (created_at x) (created_at r)); [reflexivity|].
  rewrite IH. apply perm_swap.
Qed.

Lemma order_by_created_at_desc_Permutation (l : list KeyRow) :
  Permutation (order_by_created_at_desc l) l.
Proof.
  induction l as [|r rest IH]; simpl; [reflexivity|].
  rewrite insert_desc_Permutation. now constructor.
Qed.

Lemma active_users_distinct (l : list KeyRow) :
  (forall u, (List.length (filter (is_active_of u) l) <= 1)%nat) ->
  NoDup (map user_id (filter (fun r => status_eqb (status r) active) l)).
Proof.
  induction l as [|r rest IH]; intros Hinv; simpl; [constructor|].
  assert (Hrest : forall u,
            (List.length (filter (is_active_of u) rest) <= 1)%nat).
  { intros u. specialize (Hinv u). simpl in Hinv.
    destruct (is_active_of u r); simpl in Hinv; lia. }
  destruct (status_eqb (status r) active) eqn:Hact; [|now apply IH].
  simpl. constructor; [|now apply IH].
  intros Hin. apply in_map_iff in Hin. destruct Hin as (r' & Huser & Hin').
  apply filter_In in Hin'. destruct Hin' as [Hin' Hact'].
  specialize (Hinv (user_id r)). simpl in Hinv.
  unfold is_active_of at 1 in Hinv. rewrite Z.eqb_refl, Hact in Hinv.
  simpl in Hinv.
  assert (Hr' : In r' (filter (is_active_of (user_id r)) rest)).
  { apply filter_In. split; [assumption|].
    unfold is_active_of. rewrite Huser, Z.eqb_refl. exact Hact'. }
  destruct (filter (is_active_of (user_id r)) rest); [contradiction|].
  simpl in Hinv. lia.
Qed.

Lemma listing_users_distinct (db : DB) (listing : list KeyRow) :
  unique_active db ->
  fst (getAllUsersWithKeys db) = Ok listing ->
  NoDup (map user_id listing).
Proof.
  intros Hinv Hlist. unfold getAllUsersWithKeys in Hlist; simpl in Hlist.
  injection Hlist as <-.
  apply (Permutation_NoDup
           (l := map user_id
                   (filter (fun r => status_eqb (status r) active)
                           (user_api_keys db)))).
  - apply Permutation_map. symmetry.
    apply order_by_created_at_desc_Permutation.
  - apply active_users_distinct. exact Hinv.
Qed.

Lemma listing_In (db : DB) (listing : list KeyRow) (k : KeyRow) :
  fst (getAllUsersWithKeys db) = Ok listing ->
  (In k listing <-> In k (active_rows (user_id k) db)).
Proof.
  unfold getAllUsersWithKeys; simpl. intros [= <-].
  rewrite order_by_created_at_desc_In. unfold active_rows.
  rewrite !filter_In, is_active_of_spec, status_eqb_eq. tauto.
Qed.

(** X7. In a store with at most one active record per user, a listing of
    the users with keys that succeeds agrees with the lookups of single
    users: it names no user twice, a record is listed exactly when it is
    the record that the lookup of its user returns, and the lookup of a
    user returns null exactly when the listing does not name the user. *)
Theorem listing_agrees_with_lookup (db : DB) (listing : list KeyRow)
    (Hinv : unique_active db)
    (Hlist : fst (getAllUsersWithKeys db) = Ok listing) :
  NoDup (map user_id listing)
  /\ (forall k, In k listing
                <-> fst (getUserApiKey (user_id k) db) = Ok (Some k))
  /\ (forall u, fst (getUserApiKey u db) = Ok None
                <-> ~ In u (map user_id listing)).
Proof.
  split; [now apply (listing_users_distinct db)|]. split.
  - intros k. split.
    + intros Hin. unfold getUserApiKey; simpl.
      now rewrite (listed_key_is_the_active_one db listing k Hinv Hlist Hin).
    + intros Hget. apply getUserApiKey_found, latest_In in Hget.
      now apply (listing_In db listing k Hlist).
  - intros u. unfold getUserApiKey; simpl. split.
    + intros Hnone Hin. apply in_map_iff in Hin.
      destruct Hin as (k & Huser & Hin).
      apply (listing_In db listing k Hlist) in Hin. rewrite Huser in Hin.
      assert (Hrows : active_rows u db = [])
        by (apply latest_nil_inv; congruence).
      now rewrite Hrows in Hin.
    + intros Hnot. destruct (latest (active_rows u db)) as [k|] eqn:Hlatest;
        [exfalso|reflexivity].
      apply latest_In in Hlatest.
      assert (Huser : user_id k = u).
      { apply filter_In in Hlatest. destruct Hlatest as [_ Hact].
        now apply is_active_of_spec in Hact. }
      apply Hnot. apply in_map_iff. exists k. split; [assumption|].
      apply (listing_In db listing k Hlist). now rewrite Huser.
Qed.

Lemma listing_agrees_with_lookup_witness :
  fst (getUserApiKey 2 three_users_db) = Ok (Some (sample_key 20 2 2 (Some 5000) 1200))
  /\ fst (getUserApiKey 4 three_users_db) = Ok None.
Proof.
  destruct (listing_agrees_with_lookup three_users_db
              [ sample_key 10 1 3 None 0;
                sample_key 20 2 2 (Some 5000) 1200;
                sample_key 30 3 1 (Some 1000) 100 ]
              ltac:(intros u; cbv [active_count active_rows three_users_db
                                   sample_key user_api_keys filter is_active_of
                                   user_id];
                    destruct (Z.eqb_spec 3 u), (Z.eqb_spec 2 u),
                      (Z.eqb_spec 1 u); simpl; lia)
              eq_refl) as (_ & Hlisted & Hmissing).
  split.
  - apply (Hlisted (sample_key 20 2 2 (Some 5000) 1200)). simpl. auto.
  - apply (Hmissing 4). simpl. intros [H|[H|[H|[]]]]; discriminate H.
Defined.

(** ** Create, rotate and look up *)

(** X8. When the create route answers 201, the user had no active key
    before and has exactly the created one now: the lookup returns it, it
    is active with usage 0 and within its limit, it carries the requested
    limit when one was given, and a second create for the user answers
    409 with this record and writes nothing. *)
Theorem created_key_is_looked_up (e : Env) (u : uuid) (l : option cents)
    (db db' : DB) (row : KeyRow) (pk : ProviderKey)
    (Hrun : create_user e u l db = (Created row pk, db')) :
  fst (getUserApiKey u db) = Ok None
  /\ fst (getUserApiKey u db') = Ok (Some row)
  /\ active_rows u db' = [row]
  /\ user_id row = u /\ status row = active /\ current_usage row = 0
  /\ openrouter_key_id row = pk_id pk
  /\ (forall m, l = Some m -> monthly_limit row = Some m)
  /\ check_usage_limit db' u = true
  /\ (forall e' l', (forall m, l' = Some m -> 0 < m) ->
                    create_user e' u l' db' = (Conflict row, db')).
Proof.
  unfold create_user in Hrun.
  destruct (match l with Some m => m <=? 0 | None => false end) eqn:Hvalid;
    [discriminate|].
  unfold getUserApiKey in Hrun.
  destruct (latest (active_rows u db)) as [existing|] eqn:Hlatest;
    [discriminate|].
  pose proof (latest_nil_inv _ Hlatest) as Hnone.
  unfold bind, createUserKey in Hrun.
  destruct (env_provider e) as [pk0|]; [|discriminate].
  destruct (createUserApiKey _ _ _ _ _ _) as [[row0|err] db2] eqn:Hc;
    [|discriminate].
  unfold ret in Hrun. injection Hrun as -> -> ->.
  pose proof Hc as Hchecks.
  apply createUserApiKey_ok in Hc. destruct Hc as (lim & Hlim & -> & _ & ->).
  assert (Hrows : active_rows u
            (mkDB (user_api_keys db ++ [new_key_row e u (pk_id pk) (pk_name pk) lim])
                  (api_usage_logs db))
          = [new_key_row e u (pk_id pk) (pk_name pk) lim]).
  { rewrite active_rows_inserted, Hnone, Z.eqb_refl. reflexivity. }
  set (db' := mkDB _ _) in *.
  assert (Hpos : match lim with Some m => 0 < m | None => True end).
  { unfold createUserApiKey in Hchecks. rewrite Hlim in Hchecks.
    destruct (key_row_fits _); [|discriminate].
    destruct (key_row_checks _) eqn:Hk; [|discriminate].
    unfold key_row_checks in Hk. simpl in Hk.
    destruct lim as [m|]; [|exact I].
    apply andb_true_iff in Hk. destruct Hk as [Hk _]. now apply Z.ltb_lt. }
  split; [unfold getUserApiKey; simpl; now rewrite Hlatest|].
  split; [unfold getUserApiKey; simpl; now rewrite Hrows|].
  split; [exact Hrows|].
  repeat split.
  - intros m ->. simpl in Hlim. unfold js_or in Hlim. simpl in Hlim.
    assert (Hm : (m =? 0) = false) by (apply Z.eqb_neq; apply Z.leb_gt in Hvalid; lia).
    rewrite Hm in Hlim. simpl in Hlim. now injection Hlim as <-.
  - unfold check_usage_limit. rewrite Hrows. simpl.
    destruct lim as [m|]; [|reflexivity]. now apply Z.ltb_lt.
  - intros e' l' Hvalid'.
    destruct (create_user_conflict e' u l' db' Hvalid') as (k & Hin & Hk).
    + unfold active_count. rewrite Hrows. simpl. lia.
    + rewrite Hrows in Hin. destruct Hin as [<-|[]]. exact Hk.
Qed.

Lemma created_key_is_looked_up_witness :
  fst (getUserApiKey 7 (snd (create_user (env_plan_is "beta") 7 None empty_db)))
  = Ok (Some (new_key_row (env_plan_is "beta") 7 "or-a" "Formul8 User"
                          (Some 100000))).
Proof.
  apply (created_key_is_looked_up (env_plan_is "beta") 7 None empty_db _ _
           (mkProviderKey "or-a" "Formul8 User" "sk-or-v1") eq_refl).
Defined.

(** X9. A rotation that succeeds, of a key with any limit or none: the
    user had exactly one active record, the old one; the lookup now
    returns the new record, which has a different id, the old limit and
    usage 0; the old record is kept, inactive; the keys of other users
    are as before; and neither [deleteOld] nor the outcome of the
    provider's delete changes the result or the store. *)
Theorem rotation_replaces_the_active_key (e : Env) (u : uuid) (d : bool)
    (db db' : DB) (r : Rotation)
    (Hrun : rotateUserKey e u d db = (Ok r, db')) :
  active_rows u db = [oldKey r]
  /\ fst (getUserApiKey u db') = Ok (Some (newKey r))
  /\ id (newKey r) <> id (oldKey r)
  /\ monthly_limit (newKey r) = monthly_limit (oldKey r)
  /\ current_usage (newKey r) = 0
  /\ In (update_updated_at_column e (set_status inactive (oldKey r)))
        (user_api_keys db')
  /\ (forall v, v <> u -> active_rows v db' = active_rows v db)
  /\ (forall d' ok,
        rotateUserKey (mkEnv (env_now e) (env_uuid e) (env_provider e) ok
                             (env_plan e)) u d' db = (Ok r, db')).
Proof.
  pose proof Hrun as Hspec. apply rotateUserKey_ok in Hspec.
  destruct Hspec as (Hold & Hkeys & Hlogs & pk & Hpk & Hnew).
  destruct (active_row_In u db (oldKey r) Hold) as [Hin Hact].
  assert (Hdb' : db' = rotated e u (oldKey r) pk db).
  { destruct db' as [keys' logs']. simpl in Hkeys, Hlogs. subst keys' logs'.
    unfold rotated, rotated_key, deactivated. simpl. now rewrite Hnew. }
  assert (Hfresh : has_key_id (env_uuid e) (user_api_keys db) = false).
  { rewrite rotateUserKey_cases, Hold, latest_singleton, Hpk in Hrun.
    cbv zeta in Hrun.
    destruct (createUserApiKey _ _ _ _ _ _) as [[row|err] db2] eqn:Hc;
      [|discriminate].
    apply createUserApiKey_ok in Hc. destruct Hc as (_ & _ & _ & Hid & _).
    fold (deactivated e u db) in Hid.
    now rewrite has_key_id_deactivated in Hid. }
  split; [exact Hold|]. split; [|split; [|split; [|split; [|split; [|split]]]]].
  - unfold getUserApiKey; simpl. rewrite Hdb', active_rows_rotated_same.
    now rewrite Hnew.
  - rewrite Hnew. simpl. intros Heq.
    assert (Hhas : has_key_id (env_uuid e) (user_api_keys db) = true).
    { apply has_key_id_In. rewrite Heq. now apply in_map. }
    congruence.
  - now rewrite Hnew.
  - now rewrite Hnew.
  - rewrite Hkeys. apply in_or_app. left.
    replace (update_updated_at_column e (set_status inactive (oldKey r)))
      with (deactivate_row e u (oldKey r))
      by (unfold deactivate_row; now rewrite Hact).
    now apply in_map.
  - intros v Hv. rewrite Hdb'. now apply active_rows_rotated_other.
  - intros d' ok. rewrite rotateUserKey_cases in Hrun |- *.
    rewrite Hold, latest_singleton in Hrun |- *. simpl env_provider.
    rewrite Hpk in Hrun |- *. cbv zeta in Hrun |- *. exact Hrun.
Qed.

Lemma rotation_replaces_the_active_key_witness :
  fst (getUserApiKey 1 (snd (rotateUserKey (env_ok 15 12 "or-c") 1 true sample_db)))
  = Ok (Some (new_key_row (env_ok 15 12 "or-c") 1 "or-c" "Formul8 User"
                          (Some 5000))).
Proof.
  apply (proj1 (proj2 (rotation_replaces_the_active_key
                         (env_ok 15 12 "or-c") 1 true sample_db _ _ eq_refl))).
Defined.

(** X10. A rotation that fails with the provider's error has no
    compensating step: the provider did not answer, the user had one
    active key, and the rotation leaves it stored but inactive, so that
    the lookup of the user returns null afterwards; it stores no new
    record, and the other users' active records and the usage log are
    as before.  The flag [deleteOld] makes no difference. *)
Theorem failed_rotation_leaves_no_active_key (e : Env) (u : uuid) (d : bool)
    (db db' : DB)
    (Hrun : rotateUserKey e u d db = (Err ProviderError, db')) :
  env_provider e = None
  /\ exists cur,
       fst (getUserApiKey u db) = Ok (Some cur)
       /\ active_rows u db = [cur]
       /\ db' = deactivated e u db
       /\ fst (getUserApiKey u db') = Ok None
       /\ In (update_updated_at_column e (set_status inactive cur))
             (user_api_keys db')
       /\ List.length (user_api_keys db') = List.length (user_api_keys db)
       /\ (forall v, v <> u -> active_rows v db' = active_rows v db)
       /\ api_usage_logs db' = api_usage_logs db.
Proof.
  rewrite rotateUserKey_cases in Hrun.
  destruct (latest (active_rows u db)) as [cur|] eqn:Hlatest;
    [|discriminate].
  destruct (active_rows u db) as [|r [|r2 rest]] eqn:Hrows; try discriminate.
  simpl in Hlatest. injection Hlatest as ->.
  cbv zeta in Hrun. fold (deactivated e u db) in Hrun.
  destruct (env_provider e) as [pk|].
  - exfalso.
    destruct (createUserApiKey _ _ _ _ _ _) as [[row|err0] db2] eqn:Hc;
      [discriminate|].
    injection Hrun as -> _.
    unfold createUserApiKey in Hc.
    destruct (column_of_js _); [|now injection Hc].
    revert Hc. case_ifs; intros [= ]; discriminate.
  - injection Hrun as <-. split; [reflexivity|]. exists cur.
    assert (Hcur : In cur (user_api_keys db) /\ is_active_of u cur = true).
    { apply filter_In. fold (active_rows u db). rewrite Hrows. now left. }
    destruct Hcur as [Hin Hact].
    repeat split.
    + unfold getUserApiKey; simpl. now rewrite Hrows.
    + unfold getUserApiKey; simpl. unfold deactivated.
      now rewrite active_rows_deactivated_same.
    + replace (update_updated_at_column e (set_status inactive cur))
        with (deactivate_row e u cur)
        by (unfold deactivate_row; now rewrite Hact).
      now apply In_deactivated.
    + unfold deactivated; simpl. apply length_map.
    + intros v Hv. unfold deactivated.
      now apply active_rows_deactivated_other.
Qed.

Lemma failed_rotation_leaves_no_active_key_witness :
  fst (getUserApiKey 1 sample_db) = Ok (Some (sample_key 10 1 3 (Some 5000) 1200))
  /\ fst (getUserApiKey 1 (snd (rotateUserKey (env_down 18 15) 1 true sample_db)))
     = Ok None.
Proof.
  destruct (failed_rotation_leaves_no_active_key (env_down 18 15) 1 true
              sample_db _ eq_refl) as (_ & cur & Hbefore & _ & _ & Hafter & _).
  split; [reflexivity|exact Hafter].
Defined.

(** X11. The rotation route does to the store what the rotation service
    does, and answers accordingly: 200 with the old record, the new
    record and the provider's key when the service returns, 404 when the
    service finds no active key, 500 for every other error. *)
Theorem rotate_route_agrees_with_service (e : Env) (u : uuid)
    (deleteOld : option bool) (db : DB) :
  rotate_user e u deleteOld db =
  match rotateUserKey e u (match deleteOld with Some b => b | None => false end) db
  with
  | (Ok r, db') =>
      match env_provider e with
      | Some pk => (Rotated (oldKey r) (newKey r) pk, db')
      | None => (RotateFailed ProviderError, db')
      end
  | (Err (NoActiveKey _), db') => (RotateNoKey, db')
  | (Err err, db') => (RotateFailed err, db')
  end.
Proof.
  set (d := match deleteOld with Some b => b | None => false end).
  unfold rotate_user. fold d.
  rewrite rotateUserKey_cases. unfold getUserApiKey.
  destruct (latest (active_rows u db)) as [cur|]; [|reflexivity].
  unfold bind, deactivateUserApiKey.
  destruct (active_rows u db) as [|r0 [|r2 rest]]; try reflexivity.
  cbv zeta. unfold createUserKey.
  destruct (env_provider e) as [pk|]; [|reflexivity].
  destruct (createUserApiKey _ _ _ _ _ _) as [[row|err] db2] eqn:Hc.
  - destruct d; [unfold try_warn, deleteKey; destruct (env_delete_ok e)|];
      reflexivity.
  - unfold createUserApiKey in Hc.
    destruct (column_of_js _); [|now injection Hc as <- <-].
    revert Hc. case_ifs; intros [= <- <-]; reflexivity.
Qed.

(** ** The manifest of the batch rotation *)

Lemma rotate_each_manifest (envs : nat -> Env) (keys : list KeyRow) :
  forall i db,
    map ro_userId (fst (rotate_each envs i keys db)) = map user_id keys
    /\ Forall (fun o => ro_success o = true <-> ro_error o = None)
              (fst (rotate_each envs i keys db)).
Proof.
  induction keys as [|k rest IH]; intros i db; simpl; [split; constructor|].
  destruct (rotateUserKey (envs i) (user_id k) false db) as [r db1].
  specialize (IH (S i) db1).
  destruct (rotate_each envs (S i) rest db1) as [results db2]. simpl in *.
  destruct IH as [Hids Hall]. split.
  - destruct r; simpl; now rewrite Hids.
  - constructor; [|exact Hall].
    destruct r; simpl; split; congruence.
Qed.

Lemma filter_partition_length {A} (p : A -> bool) (l : list A) :
  (List.length (filter p l) + List.length (filter (fun x => negb (p x)) l)
   = List.length l)%nat.
Proof.
  induction l as [|x rest IH]; simpl; [reflexivity|].
  destruct (p x); simpl; lia.
Qed.

(** X12. When the listing taken at its start succeeds, the batch
    rotation returns a manifest, whatever the rotations of the single
    users do: it has one entry per listed key, in the listing's order and
    with the key's user; an entry is a success exactly when it carries no
    error; and the report built from the manifest counts every entry
    once, as successful or as failed, and is coloured as a warning
    exactly when some entry failed. *)
Theorem batch_rotation_manifest (envs : nat -> Env) (db : DB)
    (listing : list KeyRow)
    (Hlist : fst (getAllUsersWithKeys db) = Ok listing) :
  exists manifest db',
    rotateAllUserKeys envs db = (Ok manifest, db')
    /\ map ro_userId manifest = map user_id listing
    /\ Forall (fun o => ro_success o = true <-> ro_error o = None) manifest
    /\ (rr_successful (rotation_report manifest)
        + rr_failed (rotation_report manifest)
        = rr_total (rotation_report manifest))%nat
    /\ rr_total (rotation_report manifest) = List.length listing
    /\ (rr_warning (rotation_report manifest) = true
        <-> exists o, In o manifest /\ ro_success o = false).
Proof.
  unfold getAllUsersWithKeys in Hlist; simpl in Hlist. injection Hlist as <-.
  unfold rotateAllUserKeys, bind, getAllUsersWithKeys.
  set (listing := order_by_created_at_desc _).
  pose proof (rotate_each_manifest envs listing 0 db) as [Hids Hall].
  destruct (rotate_each envs 0 listing db) as [manifest db']. simpl in *.
  exists manifest, db'. repeat split; try assumption.
  - apply filter_partition_length.
  - rewrite <- (length_map ro_userId), Hids. apply length_map.
  - unfold rotation_report; simpl. intros Hlt. apply Nat.ltb_lt in Hlt.
    destruct (filter _ manifest) as [|o rest] eqn:Hf; [simpl in Hlt; lia|].
    assert (Hin : In o (filter (fun r => negb (ro_success r)) manifest))
      by (rewrite Hf; now left).
    apply filter_In in Hin. destruct Hin as [Hin Hneg].
    exists o. split; [assumption|]. now apply negb_true_iff.
  - intros (o & Hin & Hfail). unfold rotation_report; simpl.
    apply Nat.ltb_lt.
    assert (Hf : In o (filter (fun r => negb (ro_success r)) manifest)).
    { apply filter_In. split; [assumption|]. now rewrite Hfail. }
    destruct (filter _ manifest); [contradiction|simpl; lia].
Qed.

Lemma batch_rotation_manifest_witness :
  exists manifest db',
    rotateAllUserKeys second_call_fails three_users_db = (Ok manifest, db')
    /\ map ro_userId manifest = [1; 2; 3]
    /\ rr_total (rotation_report manifest) = 3%nat.
Proof.
  destruct (batch_rotation_manifest second_call_fails three_users_db
              [ sample_key 10 1 3 None 0;
                sample_key 20 2 2 (Some 5000) 1200;
                sample_key 30 3 1 (Some 1000) 100 ] eq_refl)
    as (manifest & db' & Hrun & Hids & _ & _ & Htotal & _).
  exists manifest, db'. split; [exact Hrun|]. split; [exact Hids|exact Htotal].
Defined.

(* ===================================================================== *)
(** * Properties of the batch operations of OpenRouterService *)
(* ===================================================================== *)

Section Batch.

Import OpenRouter.

Variable up : Upstream.

Lemma batch_one_key_id (operation k : string) (n : nat) :
  br_keyId (fst (batch_one up operation k n)) = k.
Proof.
  unfold batch_one, deleteKey, testKey, getKeyInfo, makeRequest.
  case_ifs; destruct (up n); reflexivity.
Qed.

Lemma batch_each_key_ids (operation : string) (keyIds : list string) :
  forall n, map br_keyId (fst (batch_each up operation keyIds n)) = keyIds.
Proof.
  induction keyIds as [|k rest IH]; intros n; simpl; [reflexivity|].
  pose proof (batch_one_key_id operation k n) as Hone.
  destruct (batch_one up operation k n) as [result n1].
  specialize (IH n1). destruct (batch_each up operation rest n1) as [results n2].
  simpl in *. now rewrite IH, Hone.
Qed.

Lemma batch_one_requests (operation k : string) (n : nat) :
  snd (batch_one up operation k n)
  = if known_operation operation then S n else n.
Proof.
  unfold batch_one, known_operation, deleteKey, testKey, getKeyInfo, makeRequest.
  destruct (String.eqb operation "delete"); [now destruct (up n)|].
  destruct (String.eqb operation "info"); [now destruct (up n)|].
  destruct (String.eqb operation "test"); [now destruct (up n)|reflexivity].
Qed.

Lemma batch_each_requests (operation : string) (keyIds : list string) :
  forall n,
    snd (batch_each up operation keyIds n)
    = if known_operation operation then (n + List.length keyIds)%nat else n.
Proof.
  induction keyIds as [|k rest IH]; intros n; simpl.
  - destruct (known_operation operation); [lia|reflexivity].
  - pose proof (batch_one_requests operation k n) as Hone.
    destruct (batch_one up operation k n) as [result n1]. simpl in Hone.
    specialize (IH n1). destruct (batch_each up operation rest n1) as [results n2].
    simpl in *. rewrite IH, Hone.
    destruct (known_operation operation); [lia|reflexivity].
Qed.

(** X13. A batch operation never throws.  It returns one entry per key
    id, in the order given and carrying that id, and it makes exactly one
    request to the provider per key id for [delete], [info] and [test],
    and none for any other operation. *)
Theorem batch_is_one_request_per_key (operation : string)
    (keyIds : list string) (n : nat) :
  exists results,
    batchOperation up operation keyIds n
    = (Ok results,
       if known_operation operation then (n + List.length keyIds)%nat else n)
    /\ map br_keyId results = keyIds
    /\ List.length results = List.length keyIds.
Proof.
  unfold batchOperation.
  pose proof (batch_each_key_ids operation keyIds n) as Hids.
  pose proof (batch_each_requests operation keyIds n) as Hreq.
  destruct (batch_each up operation keyIds n) as [results n']. simpl in *.
  exists results. rewrite Hreq. repeat split; [assumption|].
  rewrite <- Hids. symmetry. apply length_map.
Qed.

Lemma batch_each_delete_info (operation : string) (keyIds : list string) :
  operation = "delete"%string \/ operation = "info"%string ->
  forall n,
    map br_success (fst (batch_each up operation keyIds n))
    = map (answered up) (seq n (List.length keyIds)).
Proof.
  intros Hop. induction keyIds as [|k rest IH]; intros n; simpl; [reflexivity|].
  destruct (batch_one up operation k n) as [result n1] eqn:Hone.
  assert (Hn1 : n1 = S n).
  { pose proof (batch_one_requests operation k n) as H. rewrite Hone in H.
    simpl in H. rewrite H. now destruct Hop as [-> | ->]. }
  subst n1. specialize (IH (S n)).
  destruct (batch_each up operation rest (S n)) as [results n2]. simpl in *.
  rewrite IH. f_equal.
  unfold batch_one, deleteKey, getKeyInfo, makeRequest, answered in *.
  destruct Hop as [-> | ->]; simpl in Hone; destruct (up n);
    now injection Hone as <-.
Qed.

Lemma batch_each_test (keyIds : list string) :
  forall n,
    Forall (fun r => br_success r = true) (fst (batch_each up "test" keyIds n))
    /\ map entry_valid (fst (batch_each up "test" keyIds n))
       = map (fun i => Some (answered up i)) (seq n (List.length keyIds)).
Proof.
  induction keyIds as [|k rest IH]; intros n; simpl; [split; constructor|].
  unfold batch_one at 1 2, testKey, getKeyInfo, makeRequest, answered. simpl.
  specialize (IH (S n)).
  destruct (up n); destruct (batch_each up "test" rest (S n)) as [results n2];
    simpl in *; destruct IH as [Hall Hvalid]; (split; [now constructor|]);
    rewrite Hvalid; unfold answered, entry_valid; simpl; reflexivity.
Qed.

Lemma batch_each_unknown (operation : string) (keyIds : list string) :
  known_operation operation = false ->
  forall n,
    Forall (fun r => br_success r = false /\ br_error r = Some UnknownOperation)
           (fst (batch_each up operation keyIds n)).
Proof.
  intros Hop. unfold known_operation in Hop.
  apply orb_false_iff in Hop. destruct Hop as [Hop Htest].
  apply orb_false_iff in Hop. destruct Hop as [Hdel Hinfo].
  induction keyIds as [|k rest IH]; intros n; simpl; [constructor|].
  unfold batch_one at 1. rewrite Hdel, Hinfo, Htest.
  specialize (IH n). destruct (batch_each up operation rest n) as [results n2].
  simpl in *. constructor; [split; reflexivity|exact IH].
Qed.

(** X14. What the entries of a batch say.  For [delete] and [info] the
    entry of the i-th key id is a success exactly when the provider
    answers the i-th request.  For [test] every entry is a success, also
    when the provider fails the request: only the [valid] flag inside the
    entry tells whether it answered.  For any other operation every entry
    fails with 'Unknown operation'. *)
Theorem batch_entries (operation : string) (keyIds : list string) (n : nat) :
  map br_success (fst (batch_each up "delete" keyIds n))
  = map (answered up) (seq n (List.length keyIds))
  /\ map br_success (fst (batch_each up "info" keyIds n))
     = map (answered up) (seq n (List.length keyIds))
  /\ Forall (fun r => br_success r = true) (fst (batch_each up "test" keyIds n))
  /\ map entry_valid (fst (batch_each up "test" keyIds n))
     = map (fun i => Some (answered up i)) (seq n (List.length keyIds))
  /\ (known_operation operation = true
      \/ Forall (fun r => br_success r = false
                          /\ br_error r = Some UnknownOperation)
                (fst (batch_each up operation keyIds n))).
Proof.
  split; [apply batch_each_delete_info; now left|].
  split; [apply batch_each_delete_info; now right|].
  split; [apply batch_each_test|]. split; [apply batch_each_test|].
  destruct (known_operation operation) eqn:Hop; [now left|right].
  now apply batch_each_unknown.
Qed.

(** X15. The batch-delete route answers 400, without any request to the
    provider, when the body's key ids are no array or an empty one.
    Otherwise it answers 200 after one delete request per key id, with
    one entry per id; its summary counts the ids as total, the answered
    requests as successful and the others as failed, so that successful
    and failed add up to the total. *)
Theorem batch_delete_summary (keyIds : option (list string)) (n : nat) :
  match keyIds with
  | None | Some [] => batch_delete up keyIds n = (BatchInvalid, n)
  | Some ids =>
      exists results successful failed,
        batch_delete up keyIds n
        = (BatchDone results (List.length ids) successful failed,
           (n + List.length ids)%nat)
        /\ map br_keyId results = ids
        /\ (successful + failed = List.length ids)%nat
        /\ successful
           = List.length (filter (answered up) (seq n (List.length ids)))
  end.
Proof.
  destruct keyIds as [[|k rest]|]; try reflexivity.
  set (ids := k :: rest). unfold batch_delete. fold ids.
  destruct (batch_is_one_request_per_key "delete" ids n)
    as (results & Hrun & Hids & Hlen).
  rewrite Hrun. simpl known_operation. cbv iota.
  do 3 eexists. split; [reflexivity|]. split; [exact Hids|]. split.
  - rewrite <- Hlen. apply filter_partition_length.
  - assert (Hsucc : map br_success results
                    = map (answered up) (seq n (List.length ids))).
    { unfold batchOperation in Hrun.
      pose proof (batch_each_delete_info "delete" ids (or_introl eq_refl) n) as H.
      destruct (batch_each up "delete" ids n) as [rs n']. simpl in H.
      now injection Hrun as <- _. }
    clear - Hsucc. revert Hsucc. generalize (seq n (List.length ids)).
    induction results as [|r rs IH]; intros [|i others] Hsucc; simpl in *;
      try discriminate; [reflexivity|].
    injection Hsucc as Hr Hrs. rewrite <- Hr.
    destruct (br_success r); simpl; now rewrite (IH others Hrs).
Qed.

End Batch.

(* ===================================================================== *)
(** * Properties of the rate limiter *)
(* ===================================================================== *)

Section Limiter.

Import RateLimiter.

Variable cfg : Config.

Lemma set_same (key : string) (data : Entry) (m : Counts) :
  set key data m key = Some data.
Proof. unfold set. now rewrite String.eqb_refl. Qed.

Lemma set_other (key k : string) (data : Entry) (m : Counts) :
  k <> key -> set key data m k = m k.
Proof.
  intros Hk. unfold set. destruct (String.eqb_spec k key); [contradiction|reflexivity].
Qed.

(** A request inside the window of the stored entry. *)
Lemma rateLimiter_in_window (ip : option string) (now : Z) (m : Counts)
    (d : Entry) :
  m (key_of ip) = Some d ->
  now <= resetTime d ->
  rateLimiter cfg ip now m =
  if maxRequests cfg <=? count d
  then (TooManyRequests (ceil_seconds (resetTime d - now)), set (key_of ip) d m)
  else (Next (maxRequests cfg) (Z.max 0 (maxRequests cfg - (count d + 1)))
             (resetTime d),
        set (key_of ip) (mkEntry (count d + 1) (resetTime d)) m).
Proof.
  intros Hfound Hopen. unfold rateLimiter. rewrite Hfound.
  replace (resetTime d <? now) with false by (symmetry; apply Z.ltb_ge; lia).
  reflexivity.
Qed.

Lemma serve_in_window (ip : option string) (times : list Z) :
  forall (m : Counts) (d : Entry),
    m (key_of ip) = Some d ->
    Forall (fun t => t <= resetTime d) times ->
    map admitted (fst (serve cfg ip times m))
    = map (fun i => count d + Z.of_nat i <? maxRequests cfg)
          (seq 0 (List.length times))
    /\ Z.of_nat (List.length (filter admitted (fst (serve cfg ip times m))))
       <= Z.max 0 (maxRequests cfg - count d)
    /\ snd (serve cfg ip times m) (key_of ip)
       = Some (mkEntry
                 (count d + Z.of_nat (List.length
                                        (filter admitted (fst (serve cfg ip times m)))))
                 (resetTime d)).
Proof.
  induction times as [|t rest IH]; intros m d Hfound Hopen; simpl.
  - split; [reflexivity|]. split; [lia|].
    rewrite Hfound, Z.add_0_r. now destruct d.
  - inversion Hopen as [|? ? Ht Hrest]; subst.
    rewrite (rateLimiter_in_window ip t m d Hfound Ht).
    destruct (Z.leb_spec (maxRequests cfg) (count d)) as [Hfull|Hroom].
    + specialize (IH (set (key_of ip) d m) d (set_same _ _ _) Hrest).
      destruct (serve cfg ip rest _) as [vs m2]. simpl in *.
      destruct IH as (Hadm & Hle & Hentry).
      replace (count d + 0 <? maxRequests cfg) with false
        by (symmetry; apply Z.ltb_ge; lia).
      split; [|split; assumption].
      f_equal. rewrite Hadm, <- seq_shift, map_map.
      apply map_ext. intros i.
      replace (count d + Z.of_nat i <? maxRequests cfg) with false
        by (symmetry; apply Z.ltb_ge; lia).
      symmetry. apply Z.ltb_ge. lia.
    + set (d' := mkEntry (count d + 1) (resetTime d)).
      specialize (IH (set (key_of ip) d' m) d' (set_same _ _ _) Hrest).
      destruct (serve cfg ip rest _) as [vs m2]. simpl in *.
      destruct IH as (Hadm & Hle & Hentry).
      replace (count d + 0 <? maxRequests cfg) with true
        by (symmetry; apply Z.ltb_lt; lia).
      split; [|split].
      * f_equal. rewrite Hadm, <- seq_shift, map_map.
        apply map_ext. intros i. f_equal. lia.
      * lia.
      * rewrite Hentry. f_equal. f_equal. lia.
Qed.

(** X16. While the window of a client's entry is open, the limiter
    admits the client's requests until the entry's count reaches
    [maxRequests] and refuses every later one: the i-th request is
    admitted exactly when the count before it is below the limit, the
    number admitted never exceeds what was left of the limit, and the
    stored count grows by the number admitted while the reset time
    stays. *)
Theorem window_admits_up_to_the_limit (ip : option string) (times : list Z)
    (m : Counts) (d : Entry)
    (Hfound : m (key_of ip) = Some d)
    (Hopen : Forall (fun t => t <= resetTime d) times) :
  let verdicts := fst (serve cfg ip times m) in
  map admitted verdicts
  = map (fun i => count d + Z.of_nat i <? maxRequests cfg)
        (seq 0 (List.length times))
  /\ Z.of_nat (List.length (filter admitted verdicts))
     <= Z.max 0 (maxRequests cfg - count d)
  /\ snd (serve cfg ip times m) (key_of ip)
     = Some (mkEntry (count d + Z.of_nat (List.length (filter admitted verdicts)))
                     (resetTime d)).
Proof. cbv zeta. now apply serve_in_window. Qed.

(** X17. The window ends strictly after its reset time.  A client whose
    count has reached the limit is refused at the reset time itself, with
    [retryAfter] 0; one millisecond later it is admitted into a new
    window that ends [windowMs] later, with count 1 (when the limit is at
    least 1). *)
Theorem window_reopens_after_reset_time (ip : option string) (m : Counts)
    (d : Entry)
    (Hfound : m (key_of ip) = Some d)
    (Hfull : maxRequests cfg <= count d)
    (Hlimit : 1 <= maxRequests cfg) :
  fst (rateLimiter cfg ip (resetTime d) m) = TooManyRequests 0
  /\ rateLimiter cfg ip (resetTime d + 1) m
     = (Next (maxRequests cfg) (maxRequests cfg - 1)
             (resetTime d + 1 + windowMs cfg),
        set (key_of ip) (mkEntry 1 (resetTime d + 1 + windowMs cfg)) m).
Proof.
  split.
  - rewrite (rateLimiter_in_window ip _ m d Hfound) by lia.
    replace (maxRequests cfg <=? count d) with true
      by (symmetry; apply Z.leb_le; lia).
    simpl. now rewrite Z.sub_diag.
  - unfold rateLimiter. rewrite Hfound.
    replace (resetTime d <? resetTime d + 1) with true
      by (symmetry; apply Z.ltb_lt; lia).
    simpl count. simpl resetTime.
    replace (maxRequests cfg <=? 0) with false
      by (symmetry; apply Z.leb_gt; lia).
    cbv iota. change (0 + 1) with 1.
    replace (Z.max 0 (maxRequests cfg - 1)) with (maxRequests cfg - 1) by lia.
    reflexivity.
Qed.

Lemma rateLimiter_other_key (ip : option string) (now : Z) (m : Counts)
    (k : string) :
  k <> key_of ip -> snd (rateLimiter cfg ip now m) k = m k.
Proof.
  intros Hk. unfold rateLimiter.
  destruct (m (key_of ip)) as [d|]; case_ifs; simpl;
    try reflexivity; now apply set_other.
Qed.

Lemma rateLimiter_verdict_local (ip : option string) (now : Z) (m1 m2 : Counts) :
  m1 (key_of ip) = m2 (key_of ip) ->
  fst (rateLimiter cfg ip now m1) = fst (rateLimiter cfg ip now m2).
Proof.
  intros Hsame. unfold rateLimiter. rewrite Hsame.
  destruct (m2 (key_of ip)) as [d|]; case_ifs; reflexivity.
Qed.

Lemma serve_other_key (ip : option string) (times : list Z) (k : string) :
  k <> key_of ip -> forall m, snd (serve cfg ip times m) k = m k.
Proof.
  intros Hk. induction times as [|t rest IH]; intros m; simpl; [reflexivity|].
  pose proof (rateLimiter_other_key ip t m k Hk) as H1.
  destruct (rateLimiter cfg ip t m) as [v m1].
  specialize (IH m1). destruct (serve cfg ip rest m1) as [vs m2].
  simpl in *. congruence.
Qed.

(** X18. The requests of one client never count against another: after
    any number of requests under one key, the entry of every other key is
    as before and a request under another key gets the verdict it would
    have got without them. *)
Theorem clients_are_limited_separately (ipA ipB : option string)
    (times : list Z) (now : Z) (m : Counts)
    (Hdiff : key_of ipB <> key_of ipA) :
  snd (serve cfg ipA times m) (key_of ipB) = m (key_of ipB)
  /\ fst (rateLimiter cfg ipB now (snd (serve cfg ipA times m)))
     = fst (rateLimiter cfg ipB now m).
Proof.
  pose proof (serve_other_key ipA times (key_of ipB) Hdiff m) as Hsame.
  split; [exact Hsame|]. now apply rateLimiter_verdict_local.
Qed.

(** A request that finds no entry, or one whose window has ended. *)
Lemma rateLimiter_new_window (ip : option string) (now : Z) (m : Counts) :
  0 <= windowMs cfg -> 1 <= maxRequests cfg ->
  match m (key_of ip) with
  | Some d => resetTime d < now
  | None => True
  end ->
  rateLimiter cfg ip now m
  = (Next (maxRequests cfg) (maxRequests cfg - 1) (now + windowMs cfg),
     set (key_of ip) (mkEntry 1 (now + windowMs cfg)) m).
Proof.
  intros Hwindow Hlimit Hended. unfold rateLimiter.
  destruct (m (key_of ip)) as [d|].
  - replace (resetTime d <? now) with true by (symmetry; apply Z.ltb_lt; lia).
    simpl count. simpl resetTime.
    replace (maxRequests cfg <=? 0) with false
      by (symmetry; apply Z.leb_gt; lia).
    cbv iota. change (0 + 1) with 1.
    now replace (Z.max 0 (maxRequests cfg - 1)) with (maxRequests cfg - 1) by lia.
  - simpl count. simpl resetTime.
    replace (now + windowMs cfg <? now) with false
      by (symmetry; apply Z.ltb_ge; lia).
    simpl count.
    replace (maxRequests cfg <=? 0) with false
      by (symmetry; apply Z.leb_gt; lia).
    cbv iota. change (0 + 1) with 1.
    now replace (Z.max 0 (maxRequests cfg - 1)) with (maxRequests cfg - 1) by lia.
Qed.

Lemma sweep_set (key : string) (swept : Z) (m : Counts) :
  0 <= windowMs cfg ->
  forall e k,
    swept <= resetTime e ->
    set key e (sweep cfg swept m) k = sweep cfg swept (set key e m) k.
Proof.
  intros Hwindow e k He. unfold sweep, set.
  destruct (String.eqb k key); [|reflexivity].
  now replace (windowMs cfg <? swept - resetTime e) with false
    by (symmetry; apply Z.ltb_ge; lia).
Qed.

(** X19. The periodic sweep is invisible to clients.  With a window that
    is not negative and a limit of at least 1, a request that arrives
    after a sweep gets the verdict it would have got without the sweep,
    and the map it leaves is the one a sweep after the request would
    leave: an entry is only deleted when the next request under its key
    would have restarted its window anyway. *)
Theorem sweep_is_invisible (ip : option string) (swept now : Z) (m : Counts)
    (Hwindow : 0 <= windowMs cfg)
    (Hlimit : 1 <= maxRequests cfg)
    (Horder : swept <= now) :
  fst (rateLimiter cfg ip now (sweep cfg swept m))
  = fst (rateLimiter cfg ip now m)
  /\ forall k, snd (rateLimiter cfg ip now (sweep cfg swept m)) k
               = sweep cfg swept (snd (rateLimiter cfg ip now m)) k.
Proof.
  pose proof (sweep_set (key_of ip) swept m Hwindow) as Hset.
  destruct (m (key_of ip)) as [d|] eqn:Hfound.
  - destruct (Z.ltb_spec (resetTime d) now) as [Hended|Hopen].
    + (* the window had ended: a new one starts, swept or not *)
      rewrite (rateLimiter_new_window ip now m Hwindow Hlimit)
        by now rewrite Hfound.
      rewrite (rateLimiter_new_window ip now (sweep cfg swept m) Hwindow Hlimit).
      * split; [reflexivity|]. intros k. apply Hset. simpl. lia.
      * unfold sweep. rewrite Hfound.
        now destruct (windowMs cfg <? swept - resetTime d).
    + (* the window is open: the sweep keeps the entry *)
      assert (Hkept : sweep cfg swept m (key_of ip) = Some d).
      { unfold sweep. rewrite Hfound.
        now replace (windowMs cfg <? swept - resetTime d) with false
          by (symmetry; apply Z.ltb_ge; lia). }
      rewrite (rateLimiter_in_window ip now m d Hfound Hopen).
      rewrite (rateLimiter_in_window ip now _ d Hkept Hopen).
      destruct (maxRequests cfg <=? count d); (split; [reflexivity|]);
        intros k; apply Hset; simpl; lia.
  - rewrite (rateLimiter_new_window ip now m Hwindow Hlimit)
      by now rewrite Hfound.
    rewrite (rateLimiter_new_window ip now (sweep cfg swept m) Hwindow Hlimit).
    + split; [reflexivity|]. intros k. apply Hset. simpl. lia.
    + unfold sweep. now rewrite Hfound.
Qed.

End Limiter.

Lemma window_admits_up_to_the_limit_witness :
  map RateLimiter.admitted
      (fst (RateLimiter.serve two_per_minute (Some "10.0.0.1"%string)
              [1000; 2000; 3000; 60000] (one_client 1 60000)))
  = [true; false; false; false].
Proof.
  apply (proj1 (window_admits_up_to_the_limit two_per_minute
                  (Some "10.0.0.1"%string) [1000; 2000; 3000; 60000]
                  (one_client 1 60000) (RateLimiter.mkEntry 1 60000) eq_refl
                  ltac:(repeat constructor; simpl; lia))).
Defined.

Lemma window_reopens_after_reset_time_witness :
  fst (RateLimiter.rateLimiter default_limits (Some "10.0.0.1"%string) 900000
         (one_client 100 900000))
  = RateLimiter.TooManyRequests 0.
Proof.
  apply (proj1 (window_reopens_after_reset_time default_limits
                  (Some "10.0.0.1"%string) (one_client 100 900000)
                  (RateLimiter.mkEntry 100 900000) eq_refl
                  ltac:(simpl; lia) ltac:(simpl; lia))).
Defined.

Lemma clients_are_limited_separately_witness :
  fst (RateLimiter.rateLimiter two_per_minute (Some "10.0.0.1"%string) 5000
         (snd (RateLimiter.serve two_per_minute (Some "10.0.0.2"%string)
                 [1000; 2000; 3000] (one_client 1 60000))))
  = fst (RateLimiter.rateLimiter two_per_minute (Some "10.0.0.1"%string) 5000
           (one_client 1 60000)).
Proof.
  apply (proj2 (clients_are_limited_separately two_per_minute
                  (Some "10.0.0.2"%string) (Some "10.0.0.1"%string)
                  [1000; 2000; 3000] 5000 (one_client 1 60000)
                  ltac:(simpl; discriminate))).
Defined.

Lemma sweep_is_invisible_witness :
  fst (RateLimiter.rateLimiter two_per_minute (Some "10.0.0.1"%string) 200000
         (RateLimiter.sweep two_per_minute 180000 (one_client 2 60000)))
  = fst (RateLimiter.rateLimiter two_per_minute (Some "10.0.0.1"%string) 200000
           (one_client 2 60000)).
Proof.
  apply (proj1 (sweep_is_invisible two_per_minute (Some "10.0.0.1"%string)
                  180000 200000 (one_client 2 60000)
                  ltac:(simpl; lia) ltac:(simpl; lia) ltac:(lia))).
Defined.

(* ===================================================================== *)
(** * Properties of the authentication middleware *)
(* ===================================================================== *)

Section Authentication.

Import Auth.

Local Open Scope string_scope.

Lemma truthy_header_not_empty (v : option string) (s : string) :
  truthy_header v = Some s -> s <> EmptyString /\ v = Some s.
Proof.
  destruct v as [[|c rest]|]; simpl; try discriminate.
  intros [= <-]. split; [discriminate|reflexivity].
Qed.

Lemma presented_key_not_empty (headers : Headers) (k : string) :
  presented_key headers = Some k -> k <> EmptyString.
Proof.
  unfold presented_key.
  destruct (truthy_header (headers "x-api-key")) as [k0|] eqn:Hkey.
  - intros [= <-]. now apply truthy_header_not_empty in Hkey.
  - intros H. now apply truthy_header_not_empty in H.
Qed.

Lemma strip_prefix_app (pat s : string) : strip_prefix pat (pat ++ s) = Some s.
Proof.
  induction pat as [|a pat IH]; simpl; [reflexivity|].
  now rewrite Ascii.eqb_refl.
Qed.

Lemma replace_first_prefix (pat s : string) : replace_first pat (pat ++ s) = s.
Proof.
  destruct (pat ++ s) as [|c rest] eqn:Happ; simpl;
    rewrite <- Happ, strip_prefix_app; reflexivity.
Qed.

(** X20. The middleware lets a request pass only when a key is
    configured, is not empty, and is the key the request presents; the
    user it attaches is the request's non-empty [x-user-id].  When no key
    is configured, or an empty one, every request is answered 401. *)
Theorem only_the_configured_key_passes (configured : option string)
    (headers : Headers) :
  match authMiddleware configured headers with
  | Continue user =>
      exists k, configured = Some k /\ k <> EmptyString
                /\ presented_key headers = Some k
                /\ user = truthy_header (headers "x-user-id")
  | Unauthorized _ => True
  | Forbidden _ => False
  end
  /\ (configured = None \/ configured = Some EmptyString ->
      exists message, authMiddleware configured headers = Unauthorized message).
Proof.
  unfold authMiddleware. split.
  - destruct (presented_key headers) as [apiKey|] eqn:Hkey; [|exact I].
    destruct configured as [k|]; [|exact I].
    destruct (String.eqb_spec apiKey k) as [->|Hne]; [|exact I].
    exists k. repeat split. now apply presented_key_not_empty in Hkey.
  - intros Hunset.
    destruct (presented_key headers) as [apiKey|] eqn:Hkey; [|eauto].
    destruct Hunset as [->| ->]; [eauto|].
    destruct (String.eqb_spec apiKey EmptyString) as [->|Hne]; [|eauto].
    now apply presented_key_not_empty in Hkey.
Qed.

(** X21. A request without [x-api-key] whose [Authorization] header is
    "Bearer " followed by the configured key passes. *)
Theorem bearer_token_is_accepted (k : string) (headers : Headers)
    (Hk : k <> EmptyString)
    (Hno_key : truthy_header (headers "x-api-key") = None)
    (Hbearer : headers "authorization" = Some ("Bearer " ++ k)) :
  authMiddleware (Some k) headers
  = Continue (truthy_header (headers "x-user-id")).
Proof.
  unfold authMiddleware, presented_key. rewrite Hno_key, Hbearer.
  cbn [option_map]. rewrite replace_first_prefix.
  destruct k as [|c rest]; [contradiction|]. cbn [truthy_header].
  now rewrite String.eqb_refl.
Qed.

(** X22. A non-empty [x-api-key] decides alone: the [Authorization]
    header is not looked at, so a request with a wrong [x-api-key] is
    refused even when its bearer token is the configured key. *)
Theorem x_api_key_takes_precedence (configured : option string)
    (headers : Headers) (k authorization : string)
    (Hkey : truthy_header (headers "x-api-key") = Some k) :
  authMiddleware configured (with_header "authorization" authorization headers)
  = authMiddleware configured headers
  /\ (configured <> Some k ->
      authMiddleware configured
        (with_header "authorization" authorization headers)
      = Unauthorized "Invalid API key").
Proof.
  assert (Hsame : authMiddleware configured
                    (with_header "authorization" authorization headers)
                  = authMiddleware configured headers).
  { unfold authMiddleware, presented_key, with_header. simpl String.eqb.
    cbv iota. now rewrite Hkey. }
  split; [exact Hsame|]. intros Hwrong. rewrite Hsame.
  unfold authMiddleware, presented_key. rewrite Hkey.
  destruct configured as [k0|]; [|reflexivity].
  destruct (String.eqb_spec k k0) as [->|Hne]; [contradiction|reflexivity].
Qed.

(** X23. The admin role is what the request says it is: every request
    that passes the key check reaches the admin routes once it carries
    the header [x-user-role: admin] (or [superadmin]), and is answered
    403 without such a header. *)
Theorem admin_role_is_self_declared (configured : option string)
    (headers : Headers) (user : option string)
    (Hpass : authMiddleware configured headers = Continue user) :
  admin_gate configured (with_header "x-user-role" "admin" headers)
  = Continue user
  /\ admin_gate configured (with_header "x-user-role" "superadmin" headers)
     = Continue user
  /\ (headers "x-user-role" = None ->
      admin_gate configured headers = Forbidden "Admin access required").
Proof.
  assert (Hrole : forall role,
            authMiddleware configured (with_header "x-user-role" role headers)
            = authMiddleware configured headers).
  { intros role. unfold authMiddleware, presented_key, with_header.
    simpl String.eqb. reflexivity. }
  unfold admin_gate. rewrite !Hrole, Hpass. repeat split.
  intros Hnone. unfold requireAdmin. now rewrite Hnone.
Qed.

End Authentication.

Lemma bearer_token_is_accepted_witness :
  Auth.authMiddleware (Some "s3cret"%string) bearer_headers = Auth.Continue None.
Proof.
  apply (bearer_token_is_accepted "s3cret" bearer_headers).
  - discriminate.
  - reflexivity.
  - reflexivity.
Defined.

Lemma x_api_key_takes_precedence_witness :
  Auth.authMiddleware (Some "other"%string)
    (Auth.with_header "authorization" "Bearer other" key_headers)
  = Auth.Unauthorized "Invalid API key".
Proof.
  apply (proj2 (x_api_key_takes_precedence (Some "other"%string) key_headers
                  "s3cret" "Bearer other" eq_refl)).
  discriminate.
Defined.

Lemma admin_role_is_self_declared_witness :
  Auth.admin_gate (Some "s3cret"%string)
    (Auth.with_header "x-user-role" "admin" key_headers)
  = Auth.Continue (Some "user-7"%string).
Proof.
  apply (proj1 (admin_role_is_self_declared (Some "s3cret"%string) key_headers
                  (Some "user-7"%string) eq_refl)).
Defined.

(* ===================================================================== *)
(** * Properties of the daily report and of the limit checks *)
(* ===================================================================== *)

(** ** The ten highest usages of the daily report *)

Lemma insert_by_usage_Permutation (r : KeyRow) (l : list KeyRow) :
  Permutation (insert_by_usage r l) (r :: l).
Proof.
  induction l as [|x xs IH]; simpl; [reflexivity|].
  destruct (current_usage x <=? current_usage r); [reflexivity|].
  rewrite IH. apply perm_swap.
Qed.

Lemma sort_by_usage_Permutation (l : list KeyRow) :
  Permutation (sort_by_usage l) l.
Proof.
  induction l as [|r rest IH]; simpl; [reflexivity|].
  rewrite insert_by_usage_Permutation. now constructor.
Qed.

Lemma insert_by_usage_sorted (r : KeyRow) (l : list KeyRow) :
  Sorted (fun a b => current_usage b <= current_usage a) l ->
  Sorted (fun a b => current_usage b <= current_usage a) (insert_by_usage r l).
Proof.
  intros Hl. induction l as [|x xs IH]; simpl.
  - repeat constructor.
  - destruct (Z.leb_spec (current_usage x) (current_usage r)) as [Hxr|Hrx].
    + constructor; [assumption|]. now constructor.
    + apply Sorted_inv in Hl. destruct Hl as [Hxs Hhd].
      constructor; [now apply IH|].
      destruct xs as [|y ys]; simpl.
      * constructor. lia.
      * destruct (current_usage y <=? current_usage r).
        -- constructor. lia.
        -- constructor. now inversion Hhd.
Qed.

Lemma sort_by_usage_sorted (l : list KeyRow) :
  StronglySorted (fun a b => current_usage b <= current_usage a)
                 (sort_by_usage l).
Proof.
  apply Sorted_StronglySorted.
  - intros a b c Hab Hbc. lia.
  - induction l as [|r rest IH]; simpl; [constructor|].
    now apply insert_by_usage_sorted.
Qed.

Lemma StronglySorted_app_inv {A} (R : A -> A -> Prop) (l1 l2 : list A) :
  StronglySorted R (l1 ++ l2) ->
  StronglySorted R l1 /\ forall a b, In a l1 -> In b l2 -> R a b.
Proof.
  induction l1 as [|x xs IH]; simpl; intros Hs.
  - split; [constructor|intros a b []].
  - apply StronglySorted_inv in Hs. destruct Hs as [Hxs Hall].
    destruct (IH Hxs) as [Hs1 Hcross]. split.
    + constructor; [assumption|].
      rewrite Forall_forall in *. intros y Hy. apply Hall.
      apply in_or_app. now left.
    + intros a b [<-|Ha] Hb; [|now apply Hcross].
      rewrite Forall_forall in Hall. apply Hall. apply in_or_app. now right.
Qed.

Lemma Sorted_map_usage (l : list KeyRow) :
  Sorted (fun a b => current_usage b <= current_usage a) l ->
  highest_first
    (map tu_usage
         (map (fun user => mkTopUser (user_id user) (current_usage user)
                                     (monthly_limit user)) l)).
Proof.
  unfold highest_first. intros Hl. induction Hl as [|x xs Hxs IH Hhd]; simpl.
  - constructor.
  - constructor; [exact IH|].
    destruct Hhd as [|y ys Hxy]; simpl; constructor. exact Hxy.
Qed.

(** X25. The daily report lists the ten keys with the highest usage,
    highest first: its top users are as many as there are keys, up to
    ten; their usages are in descending order; and the listed keys
    together with the keys left out are the keys passed in, each once,
    no key left out having a higher usage than a listed one. *)
Theorem top_users_are_the_highest (usersWithKeys : list KeyRow) :
  List.length (topUsers usersWithKeys)
  = Nat.min 10 (List.length usersWithKeys)
  /\ highest_first (map tu_usage (topUsers usersWithKeys))
  /\ exists listed others,
       topUsers usersWithKeys
       = map (fun user => mkTopUser (user_id user) (current_usage user)
                                    (monthly_limit user)) listed
       /\ Permutation (listed ++ others) usersWithKeys
       /\ forall a b, In a listed -> In b others ->
                      current_usage b <= current_usage a.
Proof.
  pose proof (sort_by_usage_sorted usersWithKeys) as Hsorted.
  pose proof (sort_by_usage_Permutation usersWithKeys) as Hperm.
  rewrite <- (firstn_skipn 10 (sort_by_usage usersWithKeys)) in Hsorted, Hperm.
  apply StronglySorted_app_inv in Hsorted. destruct Hsorted as [Htop Hcross].
  split; [|split].
  - unfold topUsers. rewrite length_map, length_firstn.
    now rewrite (Permutation_length (sort_by_usage_Permutation usersWithKeys)).
  - unfold topUsers. apply Sorted_map_usage.
    now apply StronglySorted_Sorted.
  - exists (firstn 10 (sort_by_usage usersWithKeys)),
           (skipn 10 (sort_by_usage usersWithKeys)).
    split; [reflexivity|]. split; [exact Hperm|exact Hcross].
Qed.

(** ** One alert per user *)

Lemma collect_alerts_distinct (l : list KeyRow) :
  NoDup (map user_id l) -> NoDup (map alert_userId (collect_alerts l)).
Proof.
  induction l as [|r rest IH]; simpl; intros Hnd; [constructor|].
  apply NoDup_cons_iff in Hnd. destruct Hnd as [Hfresh Hnd].
  destruct (usage_alert r) as [a|] eqn:Hr; [|now apply IH].
  simpl. constructor; [|now apply IH].
  apply usage_alert_has_limit in Hr. destruct Hr as [_ Huser].
  intros Hin. apply Hfresh. apply in_map_iff in Hin.
  destruct Hin as (a' & Hsame & Hin').
  apply collect_alerts_origin in Hin'. destruct Hin' as (r' & Hin' & Hr').
  apply usage_alert_has_limit in Hr'. destruct Hr' as [_ Huser'].
  apply in_map_iff. exists r'. split; [congruence|assumption].
Qed.

Lemma collect_alerts_length (l : list KeyRow) :
  (List.length (collect_alerts l) <= List.length l)%nat.
Proof.
  induction l as [|r rest IH]; simpl; [lia|].
  destruct (usage_alert r); simpl; lia.
Qed.

(** X26. In a store with at most one active record per user, a pass of
    the limit check whose listing succeeds returns its alerts and writes
    nothing; it raises at most one alert per user, every alert names a
    user of the listing, and there are no more alerts than listed keys. *)
Theorem one_alert_per_user (db : DB) (listing : list KeyRow)
    (Hinv : unique_active db)
    (Hlist : fst (getAllUsersWithKeys db) = Ok listing) :
  exists alerts,
    checkUsageLimits db = (Ok alerts, db)
    /\ NoDup (map alert_userId alerts)
    /\ (forall a, In a alerts -> In (alert_userId a) (map user_id listing))
    /\ (List.length alerts <= List.length listing)%nat.
Proof.
  pose proof (listing_users_distinct db listing Hinv Hlist) as Hnd.
  unfold getAllUsersWithKeys in Hlist; simpl in Hlist. injection Hlist as <-.
  unfold checkUsageLimits, bind, getAllUsersWithKeys, ret.
  eexists. split; [reflexivity|]. split; [|split].
  - now apply collect_alerts_distinct.
  - intros a Hin. apply collect_alerts_origin in Hin.
    destruct Hin as (r & Hin & Halert).
    apply usage_alert_has_limit in Halert. destruct Halert as [_ ->].
    now apply in_map.
  - apply collect_alerts_length.
Qed.

Lemma one_alert_per_user_witness :
  exists alerts,
    checkUsageLimits three_users_db = (Ok alerts, three_users_db)
    /\ NoDup (map alert_userId alerts).
Proof.
  destruct (one_alert_per_user three_users_db
              [ sample_key 10 1 3 None 0;
                sample_key 20 2 2 (Some 5000) 1200;
                sample_key 30 3 1 (Some 1000) 100 ]
              ltac:(intros u; cbv [active_count active_rows three_users_db
                                   sample_key user_api_keys filter is_active_of
                                   user_id];
                    destruct (Z.eqb_spec 3 u), (Z.eqb_spec 2 u),
                      (Z.eqb_spec 1 u); simpl; lia)
              eq_refl) as (alerts & Hrun & Hnd & _).
  exists alerts. split; [exact Hrun|exact Hnd].
Defined.

(** Twelve keys: the ten with the highest usage, ties in the order of
    the listing; the keys of users 7 and 8 are left out. *)
Example top_users_of_twelve :
  map (fun t => (tu_userId t, tu_usage t)) (topUsers twelve_keys)
  = [(6, 600); (5, 500); (12, 500); (4, 400); (11, 400);
     (3, 300); (10, 300); (2, 200); (9, 200); (1, 100)].
Proof. reflexivity. Qed.

(** ** The limit route *)

(** X27. When the limit route answers 200, its answer is coherent: it
    reports the limit, usage and reset date of the key that the lookup
    returns (none of them when there is no active key), its flag is the
    answer of [check_usage_limit], and it reports the user as over the
    limit exactly when that key has a limit and its usage has reached
    it. *)
Theorem limit_route_reports_the_active_key (db : DB) (u : uuid)
    (data : LimitData)
    (Hrun : usage_limit u db = LimitChecked data) :
  exists key,
    fst (getUserApiKey u db) = Ok key
    /\ fst (checkUserUsageLimit u db) = Ok (withinLimit data)
    /\ monthlyLimit data = option_map monthly_limit key
    /\ currentUsage data = option_map current_usage key
    /\ usageResetDate data = option_map usage_reset_date key
    /\ (withinLimit data = false
        <-> exists k l, key = Some k
                        /\ monthly_limit k = Some l
                        /\ l <= current_usage k).
Proof.
  unfold usage_limit, bind, checkUserUsageLimit, getUserApiKey, ret in Hrun.
  injection Hrun as <-.
  exists (latest (active_rows u db)). simpl.
  unfold check_usage_limit. repeat split.
  - destruct (latest (active_rows u db)) as [k|]; [|discriminate].
    destruct (monthly_limit k) as [l|] eqn:Hl; [|discriminate].
    intros Hover. exists k, l. repeat split; [assumption|].
    now apply Z.ltb_ge.
  - intros (k & l & -> & Hl & Hover). rewrite Hl. now apply Z.ltb_ge.
Qed.

Lemma limit_route_reports_the_active_key_witness :
  usage_limit 1 sample_db
  = LimitChecked (mkLimitData true (Some (Some 5000)) (Some 1200)
                              (Some (mkDate 2025 3 1)))
  /\ exists key,
       fst (getUserApiKey 1 sample_db) = Ok key
       /\ Some (Some 5000) = option_map monthly_limit key.
Proof.
  split; [reflexivity|].
  destruct (limit_route_reports_the_active_key sample_db 1
              (mkLimitData true (Some (Some 5000)) (Some 1200)
                           (Some (mkDate 2025 3 1))) eq_refl)
    as (key & Hget & _ & Hlimit & _).
  exists key. split; [exact Hget|exact Hlimit].
Defined.
